(** * Checkers move-decision engine (src/checkers.py)

    A shallow embedding of the board snapshot model, the two move searches
    and the game loop, followed by the properties established for them.

    Conventions of the embedding:
    - Python [int] is [Z]; [//] is [Z.div] (floor division).
    - Python [str] is [string]: a sequence of code points below 256, on
      which [int(c)] accepts exactly the characters 0-9.
    - A Python [dict] is an association list in insertion order, without
      duplicate keys; [d[k] = v] overwrites in place or appends.
    - A Python exception is the [Raise] branch of [result].
    - A generator is a finite sequence of yields ended by a normal stop or
      by an exception ([gen]); consumers pull it lazily.
    - [set(...)] is a [gset]; only membership is ever asked of it. *)

From Stdlib Require Import ZArith String Ascii List Lia.
From stdpp Require Import base list strings gmap pretty.

Local Open Scope string_scope.
Local Open Scope Z_scope.

(** ** Exceptions and results *)

Inductive exn : Type :=
| IndexError
| ValueError
| TimeoutError.

Inductive result (A : Type) : Type :=
| Ok (a : A)
| Raise (e : exn).

Arguments Ok {A} a.
Arguments Raise {A} e.

#[global] Instance result_ret : MRet result := fun _ a => Ok a.

#[global] Instance result_bind : MBind result := fun _ _ f r =>
  match r with
  | Ok a => f a
  | Raise e => Raise e
  end.

(** ** Generators *)

Inductive gen (A : Type) : Type :=
| Stop
| Yield (a : A) (rest : gen A)
| Throw (e : exn).

Arguments Stop {A}.
Arguments Yield {A} a rest.
Arguments Throw {A} e.

(** [a] is produced by the generator before it stops or throws. *)
Fixpoint yields {A : Type} (g : gen A) (a : A) : Prop :=
  match g with
  | Stop => False
  | Yield b rest => a = b \/ yields rest a
  | Throw _ => False
  end.

(** The generator runs to a normal stop. *)
Fixpoint exhausts {A : Type} (g : gen A) : Prop :=
  match g with
  | Stop => True
  | Yield _ rest => exhausts rest
  | Throw _ => False
  end.

(** [set(g)] *)
Fixpoint set_of `{Countable A} (g : gen A) : result (gset A) :=
  match g with
  | Stop => Ok ∅
  | Yield a rest => s ← set_of rest; Ok ({[a]} ∪ s)
  | Throw e => Raise e
  end.

(** [for a in g: (return body a when it is a value)] followed by
    [return None]. *)
Fixpoint for_gen {A B : Type} (g : gen A) (body : A -> option B)
  : result (option B) :=
  match g with
  | Stop => Ok None
  | Yield a rest =>
      match body a with
      | Some b => Ok (Some b)
      | None => for_gen rest body
      end
  | Throw e => Raise e
  end.

(** The same loop over a tuple literal. *)
Fixpoint for_tuple {A B : Type} (l : list A) (body : A -> option B)
  : option B :=
  match l with
  | [] => None
  | a :: rest =>
      match body a with
      | Some b => Some b
      | None => for_tuple rest body
      end
  end.

(** ** Strings *)

(** Truthiness of a string: [if s]. *)
Definition str_truthy (s : string) : bool :=
  match s with
  | EmptyString => false
  | String _ _ => true
  end.

(** [s.split("/")] *)
Fixpoint split_slash (s : string) : list string :=
  match s with
  | EmptyString => [EmptyString]
  | String c rest =>
      if Ascii.eqb c "/"%char then EmptyString :: split_slash rest
      else match split_slash rest with
           | piece :: pieces => String c piece :: pieces
           | [] => [String c EmptyString]
           end
  end.

(** [s[i]] for a non-negative literal index. *)
Definition str_index (s : string) (i : nat) : result ascii :=
  match String.get i s with
  | Some c => Ok c
  | None => Raise IndexError
  end.

(** [int(c)] on a one-character string. *)
Definition int_of_char (c : ascii) : result Z :=
  let n := Z.of_N (N_of_ascii c) in
  if (48 <=? n) && (n <=? 57) then Ok (n - 48) else Raise ValueError.

(** ** Board snapshot *)

Definition Square : Type := Z * Z.
Definition Move : Type := Square * Square.

Definition dict : Type := list (string * string).

(** [d[k] = v] *)
Fixpoint dict_setitem (k v : string) (d : dict) : dict :=
  match d with
  | [] => [(k, v)]
  | (k', v') :: rest =>
      if String.eqb k' k then (k', v) :: rest
      else (k', v') :: dict_setitem k v rest
  end.

(** [d.get(k)] *)
Fixpoint dict_get (k : string) (d : dict) : option string :=
  match d with
  | [] => None
  | (k', v') :: rest => if String.eqb k' k then Some v' else dict_get k rest
  end.

Definition keys (d : dict) : list string := map fst d.

Record BoardState : Type := mkBoardState { pieces : dict }.

(** One rendered [img] element: its [name] and [src] attributes, each of
    which may be absent. *)
Record img : Type := mkImg {
  img_name : option string;
  img_src : option string
}.

(** [src.split("/")[-1] if src else ""] *)
Definition filename_of (src : option string) : string :=
  match src with
  | Some s => if str_truthy s then List.last (split_slash s) "" else ""
  | None => ""
  end.

(** Body of the loop of [BoardState.from_page]. *)
Definition from_page_step (pieces : dict) (im : img) : dict :=
  match img_name im with
  | None => pieces
  | Some name =>
      if negb (str_truthy name) then pieces
      else dict_setitem name (filename_of (img_src im)) pieces
  end.

(** [BoardState.from_page], from the queried list of elements on. *)
Definition from_images (images : list img) : BoardState :=
  mkBoardState (fold_left from_page_step images []).

(** [x, y = int(name[5]), int(name[6])] *)
Definition square_of (name : string) : result Square :=
  c5 ← str_index name 5;
  x ← int_of_char c5;
  c6 ← str_index name 6;
  y ← int_of_char c6;
  Ok (x, y).

(** The common shape of the three views: walk the items, decode the name
    of every item whose content is [token]. *)
Fixpoint squares_with (token : string) (items : dict) : gen Square :=
  match items with
  | [] => Stop
  | (name, src) :: rest =>
      if String.eqb src token then
        match square_of name with
        | Ok sq => Yield sq (squares_with token rest)
        | Raise e => Throw e
        end
      else squares_with token rest
  end.

Definition player_pieces (self : BoardState) : gen Square :=
  squares_with "you1.gif" (pieces self).

Definition opponent_pieces (self : BoardState) : gen Square :=
  squares_with "me1.gif" (pieces self).

Definition empty_playable_squares (self : BoardState) : gen Square :=
  squares_with "gray.gif" (pieces self).

(** ** Move search *)

(** [0 <= x <= 7 and 0 <= y <= 7] *)
Definition on_board (x y : Z) : bool :=
  (0 <=? x) && (x <=? 7) && (0 <=? y) && (y <=? 7).

(** Body of the inner loop of [find_capture_move]. *)
Definition capture_from (opponents empties : gset Square)
    (sq : Square) (dx : Z) : option Move :=
  let '(x, y) := sq in
  let dest_x := x + dx in
  let dest_y := y + 2 in
  if negb (on_board dest_x dest_y) then None
  else
    let mid_x := x + dx / 2 in
    let mid_y := y + 1 in
    if bool_decide ((mid_x, mid_y) ∈ opponents)
       && bool_decide ((dest_x, dest_y) ∈ empties)
    then Some ((x, y), (dest_x, dest_y))
    else None.

Definition find_capture_move (state : BoardState) : result (option Move) :=
  opponents ← set_of (opponent_pieces state);
  empties ← set_of (empty_playable_squares state);
  for_gen (player_pieces state)
    (fun sq => for_tuple [-2; 2] (capture_from opponents empties sq)).

(** Body of the inner loop of [find_simple_move]. *)
Definition simple_from (empties : gset Square)
    (sq : Square) (dx : Z) : option Move :=
  let '(x, y) := sq in
  let dest_x := x + dx in
  let dest_y := y + 1 in
  if on_board dest_x dest_y then
    if bool_decide ((dest_x, dest_y) ∈ empties)
    then Some ((x, y), (dest_x, dest_y))
    else None
  else None.

Definition find_simple_move (state : BoardState) : result (option Move) :=
  empties ← set_of (empty_playable_squares state);
  for_gen (player_pieces state)
    (fun sq => for_tuple [-1; 1] (simple_from empties sq)).

(** Lines 112-114 of [make_moves]: the capture search first, the simple
    search only when [not move]. *)
Definition choose_move (state : BoardState) : result (option Move) :=
  move ← find_capture_move state;
  match move with
  | Some m => Ok (Some m)
  | None => find_simple_move state
  end.

(** ** The search as a reader of the snapshot object

    The searches receive a reference to a [BoardState]; the object they
    were handed is threaded through every access so that what they leave
    behind can be compared with what they were given.  The only access the
    source makes is [self.pieces.items()]; a generator reads the items when
    it is created, which is what the lazy reads of the source amount to as
    long as nothing writes in between. *)

Definition ST (A : Type) : Type := BoardState -> result A * BoardState.

Definition st_ret {A : Type} (a : A) : ST A := fun s => (Ok a, s).

Definition st_bind {A B : Type} (m : ST A) (f : A -> ST B) : ST B :=
  fun s =>
    match m s with
    | (Ok a, s') => f a s'
    | (Raise e, s') => (Raise e, s')
    end.

Definition st_lift {A : Type} (r : result A) : ST A := fun s => (r, s).

(** [self.pieces.items()] *)
Definition load_items : ST dict := fun s => (Ok (pieces s), s).

#[global] Instance ST_ret : MRet ST := @st_ret.
#[global] Instance ST_bind : MBind ST := fun _ _ f m => st_bind m f.

Definition view_st (token : string) : ST (gen Square) :=
  items ← load_items;
  mret (squares_with token items).

Definition find_capture_move_st : ST (option Move) :=
  g_opp ← view_st "me1.gif";
  opponents ← st_lift (set_of g_opp);
  g_emp ← view_st "gray.gif";
  empties ← st_lift (set_of g_emp);
  g_you ← view_st "you1.gif";
  st_lift (for_gen g_you
    (fun sq => for_tuple [-2; 2] (capture_from opponents empties sq))).

Definition find_simple_move_st : ST (option Move) :=
  g_emp ← view_st "gray.gif";
  empties ← st_lift (set_of g_emp);
  g_you ← view_st "you1.gif";
  st_lift (for_gen g_you
    (fun sq => for_tuple [-1; 1] (simple_from empties sq))).

(** ** The game surface and the game loop *)

(** What the loop does to the outside world, in order. *)
Inductive action : Type :=
| Click (selector : string)
| Print (text : string).

Definition is_click (a : action) : bool :=
  match a with
  | Click _ => true
  | Print _ => false
  end.

Definition activations (trace : list action) : nat :=
  length (filter (fun a => is_click a = true) trace).

(** The part of the page interface that [checkers.py] calls.  A wait or a
    click may give up with an exception; the page changes under each
    call. *)
Class Surface (Page : Type) : Type := {
  wait_for_selector : string -> Page -> result Page;
  wait_for_function : string -> Page -> result Page;
  query_selector_all : string -> Page -> list img;
  click : string -> Page -> result Page;
  wait_for_timeout : Z -> Page -> Page
}.

(** Outcome of one pass through the body of a [for] loop. *)
Inductive control : Type :=
| Continue
| Return.

Definition no_moves_message : string := "No moves available , ending game.".

Section GameLoop.

Context {Page : Type} `{Surface Page}.

Definition IO (A : Type) : Type := Page -> list action * result (A * Page).

Definition io_ret {A : Type} (a : A) : IO A := fun p => ([], Ok (a, p)).

Definition io_bind {A B : Type} (m : IO A) (f : A -> IO B) : IO B :=
  fun p =>
    match m p with
    | (t1, Ok (a, p1)) => let '(t2, r) := f a p1 in ((t1 ++ t2)%list, r)
    | (t1, Raise e) => (t1, Raise e)
    end.

Definition io_lift {A : Type} (r : result A) : IO A :=
  fun p => ([], match r with Ok a => Ok (a, p) | Raise e => Raise e end).

Definition io_call (f : Page -> result Page) : IO unit :=
  fun p => ([], match f p with Ok p1 => Ok (tt, p1) | Raise e => Raise e end).

Definition io_click (selector : string) : IO unit :=
  fun p => ([Click selector],
            match click selector p with
            | Ok p1 => Ok (tt, p1)
            | Raise e => Raise e
            end).

Definition io_print (text : string) : IO unit :=
  fun p => ([Print text], Ok (tt, p)).

#[global] Instance IO_ret : MRet IO := @io_ret.
#[global] Instance IO_bind : MBind IO := fun _ _ f m => io_bind m f.

Definition wait_for_turn : IO unit :=
  io_call (wait_for_selector "#message");;
  io_call (wait_for_function
    "() => document.querySelector('#message').innerText.trim().startsWith('Make a move')").

Definition from_page : IO BoardState :=
  fun p => ([], Ok (from_images (query_selector_all "#board img" p), p)).

(** [f"img[name=space{x}{y}]"] *)
Definition cell_selector (sq : Square) : string :=
  let '(x, y) := sq in
  "img[name=space" +:+ pretty x +:+ pretty y +:+ "]".

Definition perform_move (from_sq to_sq : Square) : IO unit :=
  io_click (cell_selector from_sq);;
  io_click (cell_selector to_sq).

(** Body of the loop of [make_moves]. *)
Definition make_moves_body : IO control :=
  wait_for_turn;;
  state ← from_page;
  move ← io_lift (choose_move state);
  match move with
  | None =>
      io_print "No moves available , ending game.";;
      mret Return
  | Some (from_sq, to_sq) =>
      perform_move from_sq to_sq;;
      io_call (fun p => Ok (wait_for_timeout 500 p));;
      mret Continue
  end.

(** [for _ in range(n): body] with [return] inside the body. *)
Fixpoint make_moves_loop (n : nat) : IO unit :=
  match n with
  | O => mret tt
  | S n' =>
      c ← make_moves_body;
      match c with
      | Continue => make_moves_loop n'
      | Return => mret tt
      end
  end.

Definition make_moves (number_of_moves : Z) : IO unit :=
  make_moves_loop (Z.to_nat number_of_moves).

(** What one pass of the loop does once the turn has come. *)
Definition after_wait (p1 : Page) : list action * result (control * Page) :=
  match choose_move (from_images (query_selector_all "#board img" p1)) with
  | Raise e => ([], Raise e)
  | Ok None => ([Print no_moves_message], Ok (Return, p1))
  | Ok (Some (from_sq, to_sq)) =>
      (perform_move from_sq to_sq;;
       io_call (fun p => Ok (wait_for_timeout 500 p));;
       mret Continue) p1
  end.

End GameLoop.

(** A surface that never changes: every wait is satisfied at once and a
    click leaves the board as it is. *)
#[global] Instance frozen_surface : Surface (list img) := {
  wait_for_selector := fun _ p => Ok p;
  wait_for_function := fun _ p => Ok p;
  query_selector_all := fun _ p => p;
  click := fun _ p => Ok p;
  wait_for_timeout := fun _ p => p
}.

(** ** Vocabulary of the statements and sample snapshots *)

(** A coordinate of the 8x8 board. *)
Definition in_bounds (sq : Square) : Prop :=
  (0 <= sq.1 <= 7) /\ (0 <= sq.2 <= 7).

(** The three views of a snapshot can be enumerated to the end: no
    classified cell has an identifier that fails to decode. *)
Definition readable (st : BoardState) : Prop :=
  exhausts (player_pieces st)
  /\ exhausts (opponent_pieces st)
  /\ exhausts (empty_playable_squares st).

(** The player piece on [(x, y)] can jump by [dx] columns. *)
Definition valid_jump (st : BoardState) (x y dx : Z) : Prop :=
  yields (player_pieces st) (x, y)
  /\ (dx = -2 \/ dx = 2)
  /\ in_bounds (x + dx, y + 2)
  /\ yields (empty_playable_squares st) (x + dx, y + 2)
  /\ yields (opponent_pieces st) (x + dx / 2, y + 1).

Definition has_jump (st : BoardState) : Prop :=
  exists x y dx, valid_jump st x y dx.

(** The player piece on [(x, y)] can step by [dx] columns onto a cell of
    the board. *)
Definition valid_step (st : BoardState) (x y dx : Z) : Prop :=
  yields (player_pieces st) (x, y)
  /\ (dx = -1 \/ dx = 1)
  /\ in_bounds (x + dx, y + 1)
  /\ yields (empty_playable_squares st) (x + dx, y + 1).

Definition has_step (st : BoardState) : Prop :=
  exists x y dx, valid_step st x y dx.

(** The same without the requirement that the destination is a cell of
    the board. *)
Definition has_empty_neighbour (st : BoardState) : Prop :=
  exists x y dx,
    yields (player_pieces st) (x, y)
    /\ (dx = -1 \/ dx = 1)
    /\ yields (empty_playable_squares st) (x + dx, y + 1).

Definition board_no_jump : BoardState :=
  mkBoardState [("space22", "you1.gif"); ("space33", "gray.gif");
                ("space35", "me1.gif")].

Definition board_corner : BoardState :=
  mkBoardState [("space77", "you1.gif"); ("space88", "gray.gif")].

(** A snapshot that classifies the off-board coordinates (8, 3) and (8, 2)
    as empty playable. *)
Definition board_edge : BoardState :=
  mkBoardState [("space61", "you1.gif"); ("space72", "me1.gif");
                ("space83", "gray.gif"); ("space82", "gray.gif");
                ("space52", "gray.gif")].

Definition board_scenario_A : BoardState :=
  mkBoardState [("space22", "you1.gif"); ("space33", "me1.gif");
                ("space44", "gray.gif")].

Definition board_scenario_B : BoardState :=
  mkBoardState [("space22", "you1.gif"); ("space13", "gray.gif");
                ("space33", "gray.gif")].

(** The identifier the move driver writes for a coordinate:
    [f"space{x}{y}"]. *)
Definition cell_name (x y : Z) : string :=
  "space" +:+ pretty x +:+ pretty y.

(** An identifier of the form spaceXY with X and Y decimal digits. *)
Definition cell_identifier (name : string) : Prop :=
  exists x y, (0 <= x <= 9) /\ (0 <= y <= 9) /\ name = cell_name x y.

(** An identifier of a cell of the 8x8 board. *)
Definition board_identifier (name : string) : Prop :=
  exists x y, in_bounds (x, y) /\ name = cell_name x y.

(** The three views are pairwise disjoint. *)
Definition views_disjoint (st : BoardState) : Prop :=
  forall c,
    ~ (yields (player_pieces st) c /\ yields (opponent_pieces st) c)
    /\ ~ (yields (player_pieces st) c
          /\ yields (empty_playable_squares st) c)
    /\ ~ (yields (opponent_pieces st) c
          /\ yields (empty_playable_squares st) c).

(** Every coordinate of the three views is a cell of the board. *)
Definition views_in_bounds (st : BoardState) : Prop :=
  forall c,
    yields (player_pieces st) c
    \/ yields (opponent_pieces st) c
    \/ yields (empty_playable_squares st) c ->
    in_bounds c.

Definition board_off_range : BoardState :=
  mkBoardState [("space89", "you1.gif")].

Definition page_scenario_A : list img :=
  [mkImg (Some "space22") (Some "you1.gif");
   mkImg (Some "space33") (Some "me1.gif");
   mkImg (Some "space44") (Some "gray.gif");
   mkImg (Some "space13") (Some "gray.gif")].

Definition page_scenario_C : list img :=
  [mkImg (Some "space22") (Some "you1.gif");
   mkImg (Some "space13") (Some "me1.gif");
   mkImg (Some "space33") (Some "me1.gif");
   mkImg (Some "space04") (Some "me1.gif");
   mkImg (Some "space44") (Some "me1.gif");
   mkImg (Some "space12") (Some "black.gif")].

(** ** Further code of checkers.py *)

(** The condition [restart_game] waits for. *)
Definition piece_count_script : string :=
  "() => {
  const imgs = Array.from(document.querySelectorAll('#board img'));
  const you = imgs.filter(i => i.getAttribute('src').endsWith('you1.gif')).length;
  const me  = imgs.filter(i => i.getAttribute('src').endsWith('me1.gif')).length;
  return you === 12 && me === 12;
}".

Section Restart.

Context {Page : Type} `{Surface Page}.

Definition restart_game : IO unit :=
  io_click "text=Restart...";;
  io_call (wait_for_function piece_count_script).

End Restart.

(** A surface on which the turn never comes: the wait for the status
    text gives up. *)
Definition stalled_surface : Surface (list img) := {|
  wait_for_selector := fun _ p => Ok p;
  wait_for_function := fun _ _ => Raise TimeoutError;
  query_selector_all := fun _ p => p;
  click := fun _ p => Ok p;
  wait_for_timeout := fun _ p => p
|}.

(** A surface on which no click ever lands. *)
Definition dead_surface : Surface (list img) := {|
  wait_for_selector := fun _ p => Ok p;
  wait_for_function := fun _ p => Ok p;
  query_selector_all := fun _ p => p;
  click := fun _ _ => Raise TimeoutError;
  wait_for_timeout := fun _ p => p
|}.

(** A page with an element whose name is too short to decode. *)
Definition page_short_name : list img :=
  [mkImg (Some "sp22") (Some "you1.gif")].

(** The generator begins by yielding the elements of [l], in order. *)
Fixpoint starts_with {A : Type} (g : gen A) (l : list A) {struct l}
  : Prop :=
  match l with
  | [] => True
  | x :: l' =>
      match g with
      | Yield a rest => a = x /\ starts_with rest l'
      | _ => False
      end
  end.

(** The string holds a slash. *)
Fixpoint contains_slash (s : string) : bool :=
  match s with
  | EmptyString => false
  | String c rest => Ascii.eqb c "/"%char || contains_slash rest
  end.

(** The trace is a run of clicks. *)
Definition clicks (selectors : list string) : list action :=
  map Click selectors.

(** ** Blackjack hands (src/card_game.py) *)

Module CardGame.

Inductive error : Type :=
| KeyError (key : string)
| ValueError.

Inductive outcome (A : Type) : Type :=
| Return (a : A)
| Raised (e : error).

Arguments Return {A} a.
Arguments Raised {A} e.

#[global] Instance outcome_ret : MRet outcome := fun _ a => Return a.

#[global] Instance outcome_bind : MBind outcome := fun _ _ f r =>
  match r with
  | Return a => f a
  | Raised e => Raised e
  end.

(** A card as the service describes it: a dictionary of strings. *)
Definition card : Type := dict.

(** [card[key]] *)
Definition getitem (c : card) (key : string) : outcome string :=
  match dict_get key c with
  | Some v => Return v
  | None => Raised (KeyError key)
  end.

Section Hand.

(** The builtin [int] on a string, whatever it accepts. *)
Variable py_int : string -> outcome Z.

Definition card_point_value (value : string) : outcome Z :=
  if bool_decide (value ∈ ["JACK"; "QUEEN"; "KING"]) then Return 10
  else if String.eqb value "ACE" then Return 11
  else py_int value.

(** [[card_point_value(card["value"]) for card in cards]] *)
Fixpoint points_of (cards : list card) : outcome (list Z) :=
  match cards with
  | [] => Return []
  | c :: rest =>
      value ← getitem c "value";
      p ← card_point_value value;
      ps ← points_of rest;
      Return (p :: ps)
  end.

(** [sum(points)] *)
Definition sum (points : list Z) : Z := fold_left Z.add points 0.

(** [sum(1 for card in cards if card["value"] == "ACE")] *)
Fixpoint count_aces (cards : list card) : outcome nat :=
  match cards with
  | [] => Return O
  | c :: rest =>
      value ← getitem c "value";
      n ← count_aces rest;
      Return (if String.eqb value "ACE" then S n else n)
  end.

(** [while total > 21 and ace_count > 0: total -= 10; ace_count -= 1] *)
Fixpoint downgrade (ace_count : nat) (total : Z) : Z :=
  match ace_count with
  | O => total
  | S k => if 21 <? total then downgrade k (total - 10) else total
  end.

Definition hand_total (cards : list card) : outcome Z :=
  points ← points_of cards;
  let total := sum points in
  ace_count ← count_aces cards;
  Return (downgrade ace_count total).

Definition has_blackjack (cards : list card) : outcome bool :=
  total ← hand_total cards;
  Return (total =? 21).

(** The card carries a value that has a point value. *)
Definition valued (c : card) : Prop :=
  exists v p, dict_get "value" c = Some v /\ card_point_value v = Return p.

End Hand.

(** A reader of unsigned decimal numerals, on which it agrees with
    [int]; used to evaluate hands whose values are such numerals. *)
Fixpoint numeral_value (acc : Z) (s : string) : outcome Z :=
  match s with
  | EmptyString => Return acc
  | String c rest =>
      let n := Z.of_N (N_of_ascii c) in
      if (48 <=? n) && (n <=? 57) then numeral_value (10 * acc + (n - 48)) rest
      else Raised ValueError
  end.

Definition numeral_int (s : string) : outcome Z :=
  match s with
  | EmptyString => Raised ValueError
  | String _ _ => numeral_value 0 s
  end.

End CardGame.

(** The hand of an ace, a king and a nine. *)
Definition hand_ace_king_nine : list CardGame.card :=
  [[("code", "AS"); ("value", "ACE")];
   [("code", "KH"); ("value", "KING")];
   [("code", "9D"); ("value", "9")]].

(** The hand of an ace and a queen. *)
Definition hand_ace_queen : list CardGame.card :=
  [[("value", "ACE"); ("suit", "SPADES")];
   [("value", "QUEEN"); ("suit", "HEARTS")]].

(** * Properties *)

(** ** Generators and their consumers *)

Section Generators.

Context {A : Type}.

Lemma for_tuple_none {B : Type} (body : A -> option B) (l : list A) :
  for_tuple l body = None <-> forall a, In a l -> body a = None.
Proof.
  induction l as [|a l IH]; simpl.
  - split; [intros _ a [] | reflexivity].
  - destruct (body a) as [b|] eqn:Hb.
    + split; [discriminate|].
      intros Hall. rewrite <- Hb. apply Hall. now left.
    + rewrite IH. split.
      * intros Hall a' [<-|Hin]; auto.
      * intros Hall a' Hin. apply Hall. now right.
Qed.

Lemma for_tuple_some {B : Type} (body : A -> option B) (l : list A) b :
  for_tuple l body = Some b -> exists a, In a l /\ body a = Some b.
Proof.
  induction l as [|a l IH]; simpl; [discriminate|].
  destruct (body a) as [b'|] eqn:Hb.
  - intros [= <-]. exists a. auto.
  - intros Hrest. destruct (IH Hrest) as (a' & Hin & Ha'). eauto.
Qed.

Lemma for_gen_none {B : Type} (body : A -> option B) (g : gen A) :
  for_gen g body = Ok None
  <-> exhausts g /\ forall a, yields g a -> body a = None.
Proof.
  induction g as [|a rest IH|e]; simpl.
  - split; [intros _; split; [exact I | intros a []] | reflexivity].
  - destruct (body a) as [b|] eqn:Hb.
    + split; [discriminate|].
      intros [_ Hall]. specialize (Hall a (or_introl eq_refl)). congruence.
    + rewrite IH. split.
      * intros [Hex Hall]. split; [exact Hex|].
        intros a' [->|Hy]; auto.
      * intros [Hex Hall]. split; [exact Hex|]. intros a' Hy. apply Hall.
        now right.
  - split; [discriminate | intros [[] _]].
Qed.

Lemma for_gen_some {B : Type} (body : A -> option B) (g : gen A) b :
  for_gen g body = Ok (Some b) -> exists a, yields g a /\ body a = Some b.
Proof.
  induction g as [|a rest IH|e]; simpl; [discriminate| |discriminate].
  destruct (body a) as [b'|] eqn:Hb.
  - intros [= <-]. exists a. auto.
  - intros Hrest. destruct (IH Hrest) as (a' & Hy & Ha'). eauto.
Qed.

Lemma for_gen_total {B : Type} (body : A -> option B) (g : gen A) :
  exhausts g -> exists r, for_gen g body = Ok r.
Proof.
  induction g as [|a rest IH|e]; simpl; intros Hex.
  - eauto.
  - destruct (body a); eauto.
  - destruct Hex.
Qed.

Context `{Countable A}.

Lemma set_of_elem (g : gen A) (s : gset A) :
  set_of g = Ok s -> forall a, a ∈ s <-> yields g a.
Proof.
  revert s. induction g as [|b rest IH|e]; simpl; intros s.
  - intros [= <-] a. set_solver.
  - destruct (set_of rest) as [s'|e] eqn:Hs; simpl; [|discriminate].
    intros [= <-] a. rewrite elem_of_union, elem_of_singleton.
    now rewrite (IH s' eq_refl a).
  - discriminate.
Qed.

Lemma set_of_exhausts (g : gen A) :
  exhausts g <-> exists s, set_of g = Ok s.
Proof.
  induction g as [|b rest IH|e]; simpl.
  - split; eauto.
  - rewrite IH. split.
    + intros [s ->]. simpl. eauto.
    + intros [s Hs]. destruct (set_of rest) as [s'|]; [eauto|discriminate].
  - split; [intros [] | intros [s Hs]; discriminate].
Qed.

End Generators.

(** ** The candidate tests *)

Lemma on_board_spec (x y : Z) : on_board x y = true <-> in_bounds (x, y).
Proof. unfold on_board, in_bounds. simpl. lia. Qed.

Lemma capture_from_spec (opponents empties : gset Square) x y dx m :
  capture_from opponents empties (x, y) dx = Some m
  <-> in_bounds (x + dx, y + 2)
      /\ (x + dx / 2, y + 1) ∈ opponents
      /\ (x + dx, y + 2) ∈ empties
      /\ m = ((x, y), (x + dx, y + 2)).
Proof.
  unfold capture_from. rewrite <- on_board_spec.
  destruct (on_board (x + dx) (y + 2)); simpl.
  - destruct (bool_decide_reflect ((x + dx / 2, y + 1) ∈ opponents));
      destruct (bool_decide_reflect ((x + dx, y + 2) ∈ empties)); simpl;
      split; try discriminate; try tauto.
    + intros [= <-]. auto.
    + intros (_ & _ & _ & ->). reflexivity.
  - split; [discriminate | intros [? _]; discriminate].
Qed.

Lemma simple_from_spec (empties : gset Square) x y dx m :
  simple_from empties (x, y) dx = Some m
  <-> in_bounds (x + dx, y + 1)
      /\ (x + dx, y + 1) ∈ empties
      /\ m = ((x, y), (x + dx, y + 1)).
Proof.
  unfold simple_from. rewrite <- on_board_spec.
  destruct (on_board (x + dx) (y + 1)); simpl.
  - destruct (bool_decide_reflect ((x + dx, y + 1) ∈ empties)); simpl;
      split; try discriminate; try tauto.
    + intros [= <-]. auto.
    + intros (_ & _ & ->). reflexivity.
  - split; [discriminate | intros [? _]; discriminate].
Qed.

(** ** The searches, once the sets are built *)

Lemma find_capture_move_sets st opponents empties :
  set_of (opponent_pieces st) = Ok opponents ->
  set_of (empty_playable_squares st) = Ok empties ->
  find_capture_move st
  = for_gen (player_pieces st)
      (fun sq => for_tuple [-2; 2] (capture_from opponents empties sq)).
Proof.
  intros Ho He. unfold find_capture_move. rewrite Ho. simpl.
  rewrite He. reflexivity.
Qed.

Lemma find_simple_move_sets st empties :
  set_of (empty_playable_squares st) = Ok empties ->
  find_simple_move st
  = for_gen (player_pieces st)
      (fun sq => for_tuple [-1; 1] (simple_from empties sq)).
Proof. intros He. unfold find_simple_move. rewrite He. reflexivity. Qed.

Lemma find_capture_move_Ok st r :
  find_capture_move st = Ok r ->
  exists opponents empties,
    set_of (opponent_pieces st) = Ok opponents
    /\ set_of (empty_playable_squares st) = Ok empties.
Proof.
  unfold find_capture_move.
  destruct (set_of (opponent_pieces st)) as [os|]; simpl; [|discriminate].
  destruct (set_of (empty_playable_squares st)) as [es|]; simpl;
    [|discriminate].
  eauto.
Qed.

Lemma find_simple_move_Ok st r :
  find_simple_move st = Ok r ->
  exists empties, set_of (empty_playable_squares st) = Ok empties.
Proof.
  unfold find_simple_move.
  destruct (set_of (empty_playable_squares st)) as [es|]; simpl;
    [|discriminate].
  eauto.
Qed.

(** A returned capture is a valid jump of the snapshot. *)
Lemma find_capture_move_sound st m :
  find_capture_move st = Ok (Some m) ->
  exists x y dx,
    valid_jump st x y dx /\ m = ((x, y), (x + dx, y + 2)).
Proof.
  intros Hf. destruct (find_capture_move_Ok _ _ Hf) as (os & es & Ho & He).
  rewrite (find_capture_move_sets _ _ _ Ho He) in Hf.
  apply for_gen_some in Hf as ([x y] & Hy & Hb).
  apply for_tuple_some in Hb as (dx & Hdx & Hb).
  apply capture_from_spec in Hb as (Hin & Hmid & Hdest & ->).
  exists x, y, dx. split; [|reflexivity].
  repeat split; try (apply Hin); auto.
  - simpl in Hdx. intuition.
  - now apply (set_of_elem _ _ He).
  - now apply (set_of_elem _ _ Ho).
Qed.

Lemma find_simple_move_sound st m :
  find_simple_move st = Ok (Some m) ->
  exists x y dx,
    valid_step st x y dx /\ m = ((x, y), (x + dx, y + 1)).
Proof.
  intros Hf. destruct (find_simple_move_Ok _ _ Hf) as (es & He).
  rewrite (find_simple_move_sets _ _ He) in Hf.
  apply for_gen_some in Hf as ([x y] & Hy & Hb).
  apply for_tuple_some in Hb as (dx & Hdx & Hb).
  apply simple_from_spec in Hb as (Hin & Hdest & ->).
  exists x, y, dx. split; [|reflexivity].
  repeat split; try (apply Hin); auto.
  - simpl in Hdx. intuition.
  - now apply (set_of_elem _ _ He).
Qed.

(** [None] is returned exactly when the views can be enumerated and hold
    no valid jump. *)
Lemma find_capture_move_None st :
  find_capture_move st = Ok None <-> readable st /\ ~ has_jump st.
Proof.
  split.
  - intros Hf. destruct (find_capture_move_Ok _ _ Hf) as (os & es & Ho & He).
    rewrite (find_capture_move_sets _ _ _ Ho He) in Hf.
    apply for_gen_none in Hf as [Hex Hall]. split.
    + split; [exact Hex|].
      split; apply set_of_exhausts; eauto.
    + intros (x & y & dx & Hy & Hdx & Hin & Hdest & Hmid).
      specialize (Hall (x, y) Hy).
      assert (Hnone : capture_from os es (x, y) dx = None).
      { eapply for_tuple_none; [exact Hall|]. simpl. intuition. }
      assert (Hsome : capture_from os es (x, y) dx
                      = Some ((x, y), (x + dx, y + 2))).
      { apply capture_from_spec. repeat split; try apply Hin.
        - now apply (set_of_elem _ _ Ho).
        - now apply (set_of_elem _ _ He). }
      congruence.
  - intros [(Hp & Ho & He) Hno].
    apply set_of_exhausts in Ho as [os Ho].
    apply set_of_exhausts in He as [es He].
    rewrite (find_capture_move_sets _ _ _ Ho He).
    apply for_gen_none. split; [exact Hp|].
    intros [x y] Hy. apply for_tuple_none. intros dx Hdx.
    destruct (capture_from os es (x, y) dx) as [m|] eqn:Hc; [|reflexivity].
    exfalso. apply Hno. exists x, y, dx.
    apply capture_from_spec in Hc as (Hin & Hmid & Hdest & _).
    repeat split; try apply Hin; auto.
    + simpl in Hdx. intuition.
    + now apply (set_of_elem _ _ He).
    + now apply (set_of_elem _ _ Ho).
Qed.

Lemma find_simple_move_None st :
  find_simple_move st = Ok None
  <-> exhausts (player_pieces st)
      /\ exhausts (empty_playable_squares st)
      /\ ~ has_step st.
Proof.
  split.
  - intros Hf. destruct (find_simple_move_Ok _ _ Hf) as (es & He).
    rewrite (find_simple_move_sets _ _ He) in Hf.
    apply for_gen_none in Hf as [Hex Hall].
    split; [exact Hex|]. split; [apply set_of_exhausts; eauto|].
    intros (x & y & dx & Hy & Hdx & Hin & Hdest).
    specialize (Hall (x, y) Hy).
    assert (Hnone : simple_from es (x, y) dx = None).
    { eapply for_tuple_none; [exact Hall|]. simpl. intuition. }
    assert (Hsome : simple_from es (x, y) dx
                    = Some ((x, y), (x + dx, y + 1))).
    { apply simple_from_spec. repeat split; try apply Hin.
      now apply (set_of_elem _ _ He). }
    congruence.
  - intros (Hp & He & Hno).
    apply set_of_exhausts in He as [es He].
    rewrite (find_simple_move_sets _ _ He).
    apply for_gen_none. split; [exact Hp|].
    intros [x y] Hy. apply for_tuple_none. intros dx Hdx.
    destruct (simple_from es (x, y) dx) as [m|] eqn:Hc; [|reflexivity].
    exfalso. apply Hno. exists x, y, dx.
    apply simple_from_spec in Hc as (Hin & Hdest & _).
    repeat split; try apply Hin; auto.
    + simpl in Hdx. intuition.
    + now apply (set_of_elem _ _ He).
Qed.

(** ** The scenarios of the specification *)

Example scenario_A_capture :
  find_capture_move board_scenario_A = Ok (Some ((2, 2), (4, 4))).
Proof. vm_compute. reflexivity. Qed.

Example scenario_B_simple :
  choose_move board_scenario_B = Ok (Some ((2, 2), (1, 3))).
Proof. vm_compute. reflexivity. Qed.

(** ** Capture search *)

(** C1: on every snapshot whose views can be enumerated,
    [find_capture_move] returns [None] if and only if no player piece
    [(x, y)] has a valid jump: a destination [(x + dx, y + 2)] with [dx]
    in {-2, +2} that lies within [0,7]x[0,7] and is in the empty playable
    squares, whose midpoint [(x + dx / 2, y + 1)] is in the opponent
    pieces. *)
Theorem find_capture_none_iff_no_jump (st : BoardState) :
  readable st ->
  (find_capture_move st = Ok None <-> ~ has_jump st).
Proof.
  intros Hr. rewrite find_capture_move_None. tauto.
Qed.

Lemma find_capture_none_iff_no_jump_witness :
  readable board_no_jump
  /\ (find_capture_move board_no_jump = Ok None <-> ~ has_jump board_no_jump).
Proof.
  assert (Hr : readable board_no_jump) by (vm_compute; tauto).
  split; [exact Hr | exact (find_capture_none_iff_no_jump board_no_jump Hr)].
Defined.

(** ** Simple-move search *)

(** C3, as stated, fails: the player piece on (7, 7) has the empty
    playable square (8, 8) at offset (+1, +1), and [find_simple_move]
    returns [None] all the same, because (8, 8) is not on the board. *)
Lemma find_simple_none_with_empty_neighbour :
  readable board_corner
  /\ ~ (find_simple_move board_corner = Ok None
        <-> ~ has_empty_neighbour board_corner).
Proof.
  split; [vm_compute; tauto|].
  intros [Hnone _]. apply Hnone; [vm_compute; reflexivity|].
  exists 7, 7, 1. repeat split.
  - vm_compute. now left.
  - now right.
  - vm_compute. now left.
Qed.

(** C3 (amended): on every snapshot whose views can be enumerated,
    [find_simple_move] returns [None] if and only if no player piece
    [(x, y)] has a diagonal neighbour [(x + dx, y + 1)], [dx] in {-1, +1},
    that lies within [0,7]x[0,7] and is in the empty playable squares. *)
Theorem find_simple_none_iff_no_step (st : BoardState) :
  readable st ->
  (find_simple_move st = Ok None <-> ~ has_step st).
Proof.
  intros (Hp & _ & He). rewrite find_simple_move_None. tauto.
Qed.

Lemma find_simple_none_iff_no_step_witness :
  readable board_corner
  /\ (find_simple_move board_corner = Ok None <-> ~ has_step board_corner).
Proof.
  assert (Hr : readable board_corner) by (vm_compute; tauto).
  split; [exact Hr | exact (find_simple_none_iff_no_step board_corner Hr)].
Defined.

(** ** Off-board destinations *)

(** C6: whatever the sets of opponent and empty squares hold, a candidate
    destination outside [0,7]x[0,7] fails the test of either search, and
    the destination of every move returned by [find_capture_move] or
    [find_simple_move] lies within [0,7]x[0,7]. *)
Theorem off_board_never_valid (st : BoardState)
    (opponents empties : gset Square) (x y dx : Z) (m : Move) :
  (~ in_bounds (x + dx, y + 2) ->
   capture_from opponents empties (x, y) dx = None)
  /\ (~ in_bounds (x + dx, y + 1) ->
      simple_from empties (x, y) dx = None)
  /\ (find_capture_move st = Ok (Some m)
      \/ find_simple_move st = Ok (Some m) ->
      in_bounds m.2).
Proof.
  split; [|split].
  - intros Hout.
    destruct (capture_from opponents empties (x, y) dx) as [m'|] eqn:Hc;
      [|reflexivity].
    apply capture_from_spec in Hc as [Hin _]. contradiction.
  - intros Hout.
    destruct (simple_from empties (x, y) dx) as [m'|] eqn:Hc; [|reflexivity].
    apply simple_from_spec in Hc as [Hin _]. contradiction.
  - intros [Hf|Hf].
    + apply find_capture_move_sound in Hf
        as (x0 & y0 & dx0 & (_ & _ & Hin & _) & ->).
      exact Hin.
    + apply find_simple_move_sound in Hf
        as (x0 & y0 & dx0 & (_ & _ & Hin & _) & ->).
      exact Hin.
Qed.

Lemma off_board_never_valid_witness :
  capture_from {[(7, 2)]} {[(8, 3); (8, 2)]} (6, 1) 2 = None
  /\ simple_from {[(8, 3); (8, 2)]} (6, 1) 2 = None
  /\ in_bounds (5, 2).
Proof.
  destruct (off_board_never_valid board_edge {[(7, 2)]} {[(8, 3); (8, 2)]}
              6 1 2 ((6, 1), (5, 2))) as (Hc & Hs & Hm).
  split; [|split].
  - apply Hc. unfold in_bounds. simpl. lia.
  - apply Hs. unfold in_bounds. simpl. lia.
  - apply Hm. right. vm_compute. reflexivity.
Defined.

(** ** Returned moves *)

(** C9: a move [((x, y), (x', y'))] returned by [find_capture_move] starts
    on a player piece, ends on [(x + dx, y + 2)] for some [dx] in
    {-2, +2}, its destination is an empty playable square within
    [0,7]x[0,7], and the midpoint [(x + dx / 2, y + 1)] is an opponent
    piece; a move returned by [find_simple_move] starts on a player piece
    and ends on [(x + dx, y + 1)] for some [dx] in {-1, +1}, an empty
    playable square within [0,7]x[0,7]. *)
Theorem returned_move_valid (st : BoardState) (x y x' y' : Z) :
  (find_capture_move st = Ok (Some ((x, y), (x', y'))) ->
   yields (player_pieces st) (x, y)
   /\ (exists dx, (dx = -2 \/ dx = 2)
                  /\ (x', y') = (x + dx, y + 2)
                  /\ yields (opponent_pieces st) (x + dx / 2, y + 1))
   /\ yields (empty_playable_squares st) (x', y')
   /\ in_bounds (x', y'))
  /\ (find_simple_move st = Ok (Some ((x, y), (x', y'))) ->
      yields (player_pieces st) (x, y)
      /\ (exists dx, (dx = -1 \/ dx = 1) /\ (x', y') = (x + dx, y + 1))
      /\ yields (empty_playable_squares st) (x', y')
      /\ in_bounds (x', y')).
Proof.
  split; intros Hf.
  - apply find_capture_move_sound in Hf
      as (x0 & y0 & dx & (Hp & Hdx & Hin & He & Ho) & [= -> -> -> ->]).
    repeat split; try apply Hin; auto.
    exists dx. auto.
  - apply find_simple_move_sound in Hf
      as (x0 & y0 & dx & (Hp & Hdx & Hin & He) & [= -> -> -> ->]).
    repeat split; try apply Hin; auto.
    exists dx. auto.
Qed.

Lemma returned_move_valid_witness :
  (yields (player_pieces board_scenario_A) (2, 2)
   /\ (exists dx, (dx = -2 \/ dx = 2)
                  /\ (4, 4) = (2 + dx, 2 + 2)
                  /\ yields (opponent_pieces board_scenario_A)
                       (2 + dx / 2, 2 + 1))
   /\ yields (empty_playable_squares board_scenario_A) (4, 4)
   /\ in_bounds (4, 4))
  /\ (yields (player_pieces board_scenario_B) (2, 2)
      /\ (exists dx, (dx = -1 \/ dx = 1) /\ (1, 3) = (2 + dx, 2 + 1))
      /\ yields (empty_playable_squares board_scenario_B) (1, 3)
      /\ in_bounds (1, 3)).
Proof.
  split.
  - apply (returned_move_valid board_scenario_A 2 2 4 4).
    vm_compute. reflexivity.
  - apply (returned_move_valid board_scenario_B 2 2 1 3).
    vm_compute. reflexivity.
Defined.

(** ** Dictionaries *)

Lemma dict_setitem_overwrite k a b d :
  dict_setitem k a (dict_setitem k b d) = dict_setitem k a d.
Proof.
  induction d as [|[k0 v0] rest IH]; simpl.
  - now rewrite String.eqb_refl.
  - destruct (String.eqb k0 k) eqn:Hk; simpl; rewrite Hk; [reflexivity|].
    now rewrite IH.
Qed.

Lemma keys_dict_setitem_old k v d :
  In k (keys d) -> keys (dict_setitem k v d) = keys d.
Proof.
  induction d as [|[k0 v0] rest IH]; simpl; [intros []|].
  destruct (String.eqb k0 k) eqn:Hk; simpl; [reflexivity|].
  apply String.eqb_neq in Hk. intros [Heq|Hin]; [congruence|].
  now rewrite IH.
Qed.

Lemma keys_dict_setitem_new k v d :
  ~ In k (keys d) -> keys (dict_setitem k v d) = (keys d ++ [k])%list.
Proof.
  induction d as [|[k0 v0] rest IH]; simpl; [reflexivity|].
  intros Hnotin. destruct (String.eqb k0 k) eqn:Hk; simpl.
  - apply String.eqb_eq in Hk. tauto.
  - rewrite IH; [reflexivity | tauto].
Qed.

Lemma In_keys_dict_setitem n k v d :
  In n (keys d) -> In n (keys (dict_setitem k v d)).
Proof.
  intros Hin. destruct (in_dec String.string_dec k (keys d)) as [Hk|Hk].
  - now rewrite keys_dict_setitem_old.
  - rewrite keys_dict_setitem_new by assumption. apply in_or_app. now left.
Qed.

Lemma In_keys_dict_setitem_same k v d : In k (keys (dict_setitem k v d)).
Proof.
  destruct (in_dec String.string_dec k (keys d)) as [Hk|Hk].
  - now rewrite keys_dict_setitem_old.
  - rewrite keys_dict_setitem_new by assumption. apply in_or_app.
    right. now left.
Qed.

Lemma dict_setitem_commute n k v w d :
  k <> n -> In n (keys d) ->
  dict_setitem k w (dict_setitem n v d)
  = dict_setitem n v (dict_setitem k w d).
Proof.
  intros Hne. induction d as [|[k0 v0] rest IH]; simpl; [intros []|].
  intros Hin.
  destruct (String.eqb k0 n) eqn:Hn; destruct (String.eqb k0 k) eqn:Hk;
    simpl; rewrite ?Hn, ?Hk; try reflexivity.
  - apply String.eqb_eq in Hn, Hk. congruence.
  - apply String.eqb_neq in Hn. destruct Hin as [Heq|Hin]; [congruence|].
    now rewrite IH.
Qed.

Lemma NoDup_keys_dict_setitem k v d :
  NoDup (keys d) -> NoDup (keys (dict_setitem k v d)).
Proof.
  intros Hnd. destruct (in_dec String.string_dec k (keys d)) as [Hk|Hk].
  - now rewrite keys_dict_setitem_old.
  - rewrite keys_dict_setitem_new by assumption.
    apply NoDup_app. split; [exact Hnd|]. split.
    + intros x Hx Hx'. apply list_elem_of_In in Hx.
      apply list_elem_of_singleton in Hx'. congruence.
    + apply NoDup_singleton.
Qed.

Lemma In_dict_setitem k v k' v' d :
  In (k, v) (dict_setitem k' v' d) -> In (k, v) d \/ (k, v) = (k', v').
Proof.
  induction d as [|[k0 v0] rest IH]; simpl.
  - intros [Heq|[]]. right. now symmetry.
  - destruct (String.eqb k0 k') eqn:Hk; simpl.
    + apply String.eqb_eq in Hk as ->.
      intros [Heq|Hin]; [right; now symmetry | left; now right].
    + intros [Heq|Hin]; [left; now left|].
      destruct (IH Hin); [left; now right | now right].
Qed.

Lemma dict_get_setitem_same k v d : dict_get k (dict_setitem k v d) = Some v.
Proof.
  induction d as [|[k0 v0] rest IH]; simpl.
  - now rewrite String.eqb_refl.
  - destruct (String.eqb k0 k) eqn:Hk; simpl; now rewrite Hk.
Qed.

Lemma dict_get_setitem_other k k' v d :
  k <> k' -> dict_get k (dict_setitem k' v d) = dict_get k d.
Proof.
  intros Hne. induction d as [|[k0 v0] rest IH]; simpl.
  - destruct (String.eqb k' k) eqn:Hk; [|reflexivity].
    apply String.eqb_eq in Hk. congruence.
  - destruct (String.eqb k0 k') eqn:Hk'; simpl.
    + apply String.eqb_eq in Hk' as ->.
      destruct (String.eqb k' k) eqn:Hk; [|reflexivity].
      apply String.eqb_eq in Hk. congruence.
    + now rewrite IH.
Qed.

Lemma dict_get_In k v d : dict_get k d = Some v -> In (k, v) d.
Proof.
  induction d as [|[k0 v0] rest IH]; simpl; [discriminate|].
  destruct (String.eqb k0 k) eqn:Hk.
  - apply String.eqb_eq in Hk as ->. intros [= ->]. now left.
  - intros Hg. right. auto.
Qed.

Lemma In_dict_get k v d :
  NoDup (keys d) -> In (k, v) d -> dict_get k d = Some v.
Proof.
  induction d as [|[k0 v0] rest IH]; simpl; [intros _ []|].
  intros Hnd Hin. apply NoDup_cons in Hnd as [Hnotin Hnd].
  destruct (String.eqb k0 k) eqn:Hk.
  - apply String.eqb_eq in Hk as ->. destruct Hin as [[= ->]|Hin];
      [reflexivity|].
    exfalso. apply Hnotin. apply list_elem_of_In.
    change k with (fst (k, v)). now apply in_map.
  - apply String.eqb_neq in Hk. destruct Hin as [[= -> ->]|Hin];
      [congruence | auto].
Qed.

Lemma NoDup_keys_functional k v1 v2 d :
  NoDup (keys d) -> In (k, v1) d -> In (k, v2) d -> v1 = v2.
Proof.
  intros Hnd H1 H2.
  apply (In_dict_get _ _ _ Hnd) in H1, H2. congruence.
Qed.

(** ** Building the snapshot *)

Lemma from_page_step_skip d im :
  img_name im = None \/ img_name im = Some "" -> from_page_step d im = d.
Proof. unfold from_page_step. now intros [->| ->]. Qed.

Lemma from_page_step_named d n s :
  n <> "" ->
  from_page_step d (mkImg (Some n) s) = dict_setitem n (filename_of s) d.
Proof.
  intros Hn. unfold from_page_step. simpl.
  destruct n; [congruence | reflexivity].
Qed.

Lemma from_page_step_cases im :
  (forall d, from_page_step d im = d)
  \/ (exists n, img_name im = Some n /\ n <> ""
                /\ forall d, from_page_step d im
                             = dict_setitem n (filename_of (img_src im)) d).
Proof.
  unfold from_page_step. destruct (img_name im) as [n|]; [|now left].
  destruct n as [|c n]; simpl; [now left|].
  right. exists (String c n). repeat split. discriminate.
Qed.

Lemma fold_from_page_step_NoDup images d :
  NoDup (keys d) -> NoDup (keys (fold_left from_page_step images d)).
Proof.
  revert d. induction images as [|im images IH]; simpl; intros d Hnd;
    [exact Hnd|].
  apply IH. destruct (from_page_step_cases im) as [->|(n & _ & _ & ->)];
    [exact Hnd | now apply NoDup_keys_dict_setitem].
Qed.

(** A snapshot read from a page is a dictionary: no key occurs twice. *)
Lemma from_images_NoDup images : NoDup (keys (pieces (from_images images))).
Proof. apply fold_from_page_step_NoDup. constructor. Qed.

Lemma fold_from_page_step_In images d k v :
  In (k, v) (fold_left from_page_step images d) ->
  In (k, v) d
  \/ exists im, In im images /\ img_name im = Some k /\ k <> ""
                /\ filename_of (img_src im) = v.
Proof.
  revert d. induction images as [|im images IH]; simpl; intros d Hin;
    [now left|].
  destruct (IH _ Hin) as [Hd|(im' & Him' & Hrest)].
  - destruct (from_page_step_cases im) as [Heq|(n & Hn & Hne & Heq)];
      rewrite Heq in Hd; [now left|].
    destruct (In_dict_setitem _ _ _ _ _ Hd) as [Hd'|[= -> ->]];
      [now left|].
    right. exists im. auto.
  - right. exists im'. auto.
Qed.

(** Once [n] is a key, what was stored under it is forgotten by the next
    assignment to [n], whatever happens to other keys in between. *)
Lemma fold_from_page_step_absorb mid n v v2 d :
  In n (keys d) ->
  dict_setitem n v2 (fold_left from_page_step mid (dict_setitem n v d))
  = dict_setitem n v2 (fold_left from_page_step mid d).
Proof.
  revert d. induction mid as [|im mid IH]; simpl; intros d Hin.
  - apply dict_setitem_overwrite.
  - destruct (from_page_step_cases im) as [Heq|(k & Hk & Hne & Heq)];
      rewrite !Heq.
    + now apply IH.
    + destruct (String.string_dec k n) as [->|Hkn].
      * now rewrite dict_setitem_overwrite.
      * rewrite dict_setitem_commute by assumption.
        apply IH. now apply In_keys_dict_setitem.
Qed.

Lemma fold_from_page_step_get images n d :
  (forall im, In im images -> img_name im <> Some n) ->
  dict_get n (fold_left from_page_step images d) = dict_get n d.
Proof.
  revert d. induction images as [|im images IH]; simpl; intros d Hno;
    [reflexivity|].
  rewrite IH by (intros im' Him'; apply Hno; now right).
  destruct (from_page_step_cases im) as [Heq|(k & Hk & Hne & Heq)];
    rewrite Heq; [reflexivity|].
  apply dict_get_setitem_other. intros ->. apply (Hno im); auto.
Qed.

(** ** The views *)

Lemma yields_squares_with token items c :
  yields (squares_with token items) c ->
  exists name, In (name, token) items /\ square_of name = Ok c.
Proof.
  induction items as [|[name src] rest IH]; simpl; [intros []|].
  destruct (String.eqb src token) eqn:Hs.
  - apply String.eqb_eq in Hs as ->.
    destruct (square_of name) as [sq|e] eqn:Hsq; simpl; [|intros []].
    intros [->|Hy].
    + exists name. auto.
    + destruct (IH Hy) as (name' & Hin & Hdec). eauto.
  - intros Hy. destruct (IH Hy) as (name' & Hin & Hdec). eauto.
Qed.

Lemma squares_with_yields token items name c :
  exhausts (squares_with token items) ->
  In (name, token) items -> square_of name = Ok c ->
  yields (squares_with token items) c.
Proof.
  induction items as [|[name' src] rest IH]; simpl; [intros _ []|].
  destruct (String.eqb src token) eqn:Hs.
  - apply String.eqb_eq in Hs as ->.
    destruct (square_of name') as [sq|e] eqn:Hsq; simpl; [|intros []].
    intros Hex [[= -> ]|Hin] Hdec.
    + left. congruence.
    + right. auto.
  - apply String.eqb_neq in Hs.
    intros Hex [[= -> ->]|Hin] Hdec; [congruence | auto].
Qed.

Lemma squares_with_exhausts token items :
  (forall name, In (name, token) items -> exists c, square_of name = Ok c) ->
  exhausts (squares_with token items).
Proof.
  induction items as [|[name src] rest IH]; simpl; [auto|].
  intros Hdec. destruct (String.eqb src token) eqn:Hs.
  - apply String.eqb_eq in Hs as ->.
    destruct (Hdec name (or_introl eq_refl)) as [c ->]. simpl.
    apply IH. intros name' Hin. apply Hdec. now right.
  - apply IH. intros name' Hin. apply Hdec. now right.
Qed.

Lemma squares_with_other token pre name content post :
  content <> token ->
  squares_with token (pre ++ (name, content) :: post)%list
  = squares_with token (pre ++ post)%list.
Proof.
  intros Hne. induction pre as [|[name' src] pre IH]; simpl.
  - apply String.eqb_neq in Hne. now rewrite Hne.
  - now rewrite IH.
Qed.

(** ** Cell identifiers *)

Lemma string_append_assoc (a b c : string) :
  (a +:+ b) +:+ c = a +:+ (b +:+ c).
Proof.
  induction a as [|ch a IH]; [reflexivity|].
  change (String ch ((a +:+ b) +:+ c) = String ch (a +:+ (b +:+ c))).
  now rewrite IH.
Qed.

(** The selector clicked for a coordinate names the cell [cell_name]. *)
Lemma cell_selector_cell_name x y :
  cell_selector (x, y) = "img[name=" +:+ cell_name x y +:+ "]".
Proof.
  unfold cell_selector, cell_name.
  rewrite !string_append_assoc. reflexivity.
Qed.

Lemma square_of_cell_name x y :
  0 <= x <= 9 -> 0 <= y <= 9 -> square_of (cell_name x y) = Ok (x, y).
Proof.
  intros Hx Hy.
  assert (Ex : x = 0 \/ x = 1 \/ x = 2 \/ x = 3 \/ x = 4 \/ x = 5 \/ x = 6
               \/ x = 7 \/ x = 8 \/ x = 9) by lia.
  assert (Ey : y = 0 \/ y = 1 \/ y = 2 \/ y = 3 \/ y = 4 \/ y = 5 \/ y = 6
               \/ y = 7 \/ y = 8 \/ y = 9) by lia.
  clear Hx Hy.
  repeat (destruct Ex as [->|Ex]); try subst x;
    repeat (destruct Ey as [->|Ey]); try subst y;
    vm_compute; reflexivity.
Qed.

Lemma cell_identifier_square_of name :
  cell_identifier name ->
  exists x y, (0 <= x <= 9) /\ (0 <= y <= 9)
              /\ square_of name = Ok (x, y) /\ name = cell_name x y.
Proof.
  intros (x & y & Hx & Hy & ->). exists x, y.
  repeat split; try lia. now apply square_of_cell_name.
Qed.

Lemma board_identifier_cell name :
  board_identifier name -> cell_identifier name.
Proof.
  intros (x & y & [Hx Hy] & ->). simpl in *. exists x, y.
  repeat split; lia.
Qed.

Lemma views_share_no_square st t1 t2 c :
  NoDup (keys (pieces st)) ->
  Forall cell_identifier (keys (pieces st)) ->
  t1 <> t2 ->
  ~ (yields (squares_with t1 (pieces st)) c
     /\ yields (squares_with t2 (pieces st)) c).
Proof.
  intros Hnd Hall Hne [H1 H2].
  apply yields_squares_with in H1 as (n1 & Hin1 & Hd1).
  apply yields_squares_with in H2 as (n2 & Hin2 & Hd2).
  rewrite Forall_forall in Hall.
  assert (Hk1 : n1 ∈ keys (pieces st)).
  { apply list_elem_of_In. change n1 with (fst (n1, t1)). now apply in_map. }
  assert (Hk2 : n2 ∈ keys (pieces st)).
  { apply list_elem_of_In. change n2 with (fst (n2, t2)). now apply in_map. }
  destruct (cell_identifier_square_of _ (Hall _ Hk1))
    as (x1 & y1 & _ & _ & Hs1 & Hn1).
  destruct (cell_identifier_square_of _ (Hall _ Hk2))
    as (x2 & y2 & _ & _ & Hs2 & Hn2).
  assert (Heq : n1 = n2) by congruence.
  rewrite <- Heq in Hin2. apply Hne.
  exact (NoDup_keys_functional _ _ _ _ Hnd Hin1 Hin2).
Qed.

(** ** Disjointness and range of the views *)

(** C4, as stated, fails: the identifier space89 carries two decimal
    digits, and the player view of the snapshot holds the coordinate
    (8, 9), outside [0,7]x[0,7]. *)
Lemma views_not_in_bounds :
  NoDup (keys (pieces board_off_range))
  /\ ~ (views_disjoint board_off_range /\ views_in_bounds board_off_range).
Proof.
  split.
  - vm_compute. apply NoDup_singleton.
  - intros [_ Hb]. specialize (Hb (8, 9)).
    assert (Hy : yields (player_pieces board_off_range) (8, 9))
      by (vm_compute; now left).
    destruct (Hb (or_introl Hy)) as [[_ Hx] _]. simpl in Hx. lia.
Qed.

(** C4 (amended): for every board snapshot whose cell identifiers all have
    the form spaceXY with X and Y decimal digits, the three views can be
    enumerated and are pairwise disjoint; when moreover X and Y are at
    most 7 in every identifier, every coordinate in the views lies within
    [0,7]x[0,7]. *)
Theorem views_disjoint_in_bounds (st : BoardState) :
  NoDup (keys (pieces st)) ->
  Forall cell_identifier (keys (pieces st)) ->
  readable st
  /\ views_disjoint st
  /\ (Forall board_identifier (keys (pieces st)) -> views_in_bounds st).
Proof.
  intros Hnd Hall. split; [|split].
  - assert (Hex : forall token, exhausts (squares_with token (pieces st))).
    { intros token. apply squares_with_exhausts. intros name Hin.
      rewrite Forall_forall in Hall.
      assert (Hk : name ∈ keys (pieces st)).
      { apply list_elem_of_In. change name with (fst (name, token)).
        now apply in_map. }
      destruct (cell_identifier_square_of _ (Hall _ Hk))
        as (x & y & _ & _ & Hs & _).
      eauto. }
    repeat split; apply Hex.
  - intros c. repeat split;
      apply views_share_no_square; auto; discriminate.
  - intros Hboard c Hc.
    assert (Hy : exists token, yields (squares_with token (pieces st)) c).
    { destruct Hc as [Hc|[Hc|Hc]]; eauto. }
    destruct Hy as (token & Hy).
    apply yields_squares_with in Hy as (name & Hin & Hdec).
    rewrite Forall_forall in Hboard.
    assert (Hk : name ∈ keys (pieces st)).
    { apply list_elem_of_In. change name with (fst (name, token)).
      now apply in_map. }
    destruct (Hboard _ Hk) as (x & y & Hxy & ->).
    rewrite square_of_cell_name in Hdec
      by (destruct Hxy as [Hx Hy']; simpl in *; lia).
    congruence.
Qed.

Lemma views_disjoint_in_bounds_witness :
  readable board_scenario_A
  /\ views_disjoint board_scenario_A
  /\ views_in_bounds board_scenario_A.
Proof.
  assert (Hnd : NoDup (keys (pieces board_scenario_A))).
  { apply (bool_decide_unpack _). vm_compute. reflexivity. }
  assert (Hb : Forall board_identifier (keys (pieces board_scenario_A))).
  { repeat constructor; [exists 2, 2 | exists 3, 3 | exists 4, 4];
      (split; [unfold in_bounds; simpl; lia | reflexivity]). }
  assert (Hc : Forall cell_identifier (keys (pieces board_scenario_A))).
  { eapply Forall_impl; [exact Hb | exact board_identifier_cell]. }
  destruct (views_disjoint_in_bounds board_scenario_A Hnd Hc)
    as (Hr & Hd & Hin).
  split; [exact Hr|]. split; [exact Hd | exact (Hin Hb)].
Defined.

(** ** Construction of the snapshot *)

(** C8: an element whose [name] is absent or empty leaves the snapshot as
    if it were not there; a coordinate appears in the player, opponent or
    empty view of the snapshot only through an element with a non-empty
    name whose content is exactly you1.gif, me1.gif or gray.gif
    respectively; and an entry with any other content can be dropped from
    the snapshot without changing any of the three views, whatever its
    identifier looks like. *)
Theorem from_images_classifies :
  (forall pre post im,
     img_name im = None \/ img_name im = Some "" ->
     from_images (pre ++ im :: post)%list = from_images (pre ++ post)%list)
  /\ (forall images c,
        let st := from_images images in
        let source token :=
          exists im name,
            In im images /\ img_name im = Some name /\ name <> ""
            /\ filename_of (img_src im) = token /\ square_of name = Ok c in
        (yields (player_pieces st) c -> source "you1.gif")
        /\ (yields (opponent_pieces st) c -> source "me1.gif")
        /\ (yields (empty_playable_squares st) c -> source "gray.gif"))
  /\ (forall pre post name content,
        content <> "you1.gif" -> content <> "me1.gif" ->
        content <> "gray.gif" ->
        let st := mkBoardState (pre ++ (name, content) :: post)%list in
        let st' := mkBoardState (pre ++ post)%list in
        player_pieces st = player_pieces st'
        /\ opponent_pieces st = opponent_pieces st'
        /\ empty_playable_squares st = empty_playable_squares st').
Proof.
  split; [|split].
  - intros pre post im Hskip. unfold from_images.
    rewrite !fold_left_app. simpl.
    now rewrite (from_page_step_skip _ _ Hskip).
  - intros images c st source.
    assert (Hsrc : forall token,
               yields (squares_with token (pieces st)) c -> source token).
    { intros token Hy.
      apply yields_squares_with in Hy as (name & Hin & Hdec).
      apply fold_from_page_step_In in Hin as [[]|(im & Him & Hn & Hne & Hf)].
      exists im, name. auto. }
    repeat split; apply Hsrc.
  - intros pre post name content Hy Hm Hg st st'.
    unfold player_pieces, opponent_pieces, empty_playable_squares. simpl.
    now rewrite !squares_with_other by assumption.
Qed.

Lemma from_images_classifies_witness :
  from_images ([mkImg (Some "space22") (Some "/img/you1.gif")]
               ++ mkImg None (Some "me1.gif")
               :: [mkImg (Some "space33") (Some "gray.gif")])%list
  = from_images ([mkImg (Some "space22") (Some "/img/you1.gif")]
                 ++ [mkImg (Some "space33") (Some "gray.gif")])%list
  /\ (exists im name,
        In im [mkImg (Some "space22") (Some "/img/you1.gif");
               mkImg (Some "space33") (Some "gray.gif")]
        /\ img_name im = Some name /\ name <> ""
        /\ filename_of (img_src im) = "you1.gif"
        /\ square_of name = Ok (2, 2))
  /\ player_pieces
       (mkBoardState ([("space22", "you1.gif")]
                      ++ ("oops", "black.gif") :: [])%list)
     = player_pieces (mkBoardState ([("space22", "you1.gif")] ++ [])%list).
Proof.
  destruct from_images_classifies as (Hskip & Hsrc & Hother).
  split; [|split].
  - apply Hskip. left. reflexivity.
  - apply (Hsrc [mkImg (Some "space22") (Some "/img/you1.gif");
                 mkImg (Some "space33") (Some "gray.gif")] (2, 2)).
    vm_compute. now left.
  - apply (Hother [("space22", "you1.gif")] [] "oops" "black.gif");
      discriminate.
Defined.

(** C10: when two elements carry the same non-empty name, the content of
    the earlier one has no effect on the snapshot (and so on none of its
    views), and, when no later element carries that name, the snapshot
    holds for it exactly the content of the later one. *)
Theorem from_images_last_wins (pre mid post : list img)
    (n : string) (s1 s1' s2 : option string) :
  n <> "" ->
  let images s :=
    (pre ++ mkImg (Some n) s :: mid ++ mkImg (Some n) s2 :: post)%list in
  from_images (images s1) = from_images (images s1')
  /\ ((forall im, In im post -> img_name im <> Some n) ->
      forall v, In (n, v) (pieces (from_images (images s1)))
                <-> v = filename_of s2).
Proof.
  intros Hn images.
  assert (Hfold : forall s,
             fold_left from_page_step (images s) []
             = fold_left from_page_step post
                 (dict_setitem n (filename_of s2)
                    (fold_left from_page_step mid
                       (dict_setitem n (filename_of s)
                          (fold_left from_page_step pre []))))).
  { intros s. unfold images. rewrite fold_left_app. simpl.
    rewrite fold_left_app. simpl.
    now rewrite !from_page_step_named by assumption. }
  split.
  - unfold from_images. f_equal. rewrite !Hfold. f_equal.
    set (d0 := fold_left from_page_step pre []).
    rewrite <- (dict_setitem_overwrite n (filename_of s1) (filename_of s1') d0).
    apply fold_from_page_step_absorb. apply In_keys_dict_setitem_same.
  - intros Hpost v. split.
    + intros Hin.
      apply (In_dict_get _ _ _ (from_images_NoDup _)) in Hin.
      unfold from_images in Hin. simpl in Hin. rewrite Hfold in Hin.
      rewrite (fold_from_page_step_get _ _ _ Hpost) in Hin.
      rewrite dict_get_setitem_same in Hin. congruence.
    + intros ->. apply dict_get_In. unfold from_images. simpl.
      rewrite Hfold. rewrite (fold_from_page_step_get _ _ _ Hpost).
      apply dict_get_setitem_same.
Qed.

Lemma from_images_last_wins_witness :
  let images s :=
    ([mkImg (Some "space11") (Some "gray.gif")]
     ++ mkImg (Some "space22") s
     :: [mkImg (Some "space33") (Some "me1.gif")]
     ++ mkImg (Some "space22") (Some "gray.gif")
     :: [mkImg (Some "space44") None])%list in
  from_images (images (Some "you1.gif")) = from_images (images None)
  /\ forall v, In ("space22", v)
                 (pieces (from_images (images (Some "you1.gif"))))
               <-> v = "gray.gif".
Proof.
  intros images.
  destruct (from_images_last_wins
              [mkImg (Some "space11") (Some "gray.gif")]
              [mkImg (Some "space33") (Some "me1.gif")]
              [mkImg (Some "space44") None]
              "space22" (Some "you1.gif") None (Some "gray.gif"))
    as [Heq Hlast]; [discriminate|].
  split; [exact Heq|].
  apply Hlast. intros im [<-|[]]. discriminate.
Defined.

(** ** The search leaves the snapshot alone *)

Lemma view_st_run token s :
  view_st token s = (Ok (squares_with token (pieces s)), s).
Proof. reflexivity. Qed.

Lemma find_capture_move_st_run s :
  find_capture_move_st s = (find_capture_move s, s).
Proof.
  unfold find_capture_move_st, find_capture_move, opponent_pieces,
    empty_playable_squares, player_pieces, view_st, load_items, st_lift.
  cbv [mbind mret ST_bind ST_ret st_bind st_ret result_bind].
  destruct (set_of (squares_with "me1.gif" (pieces s))) as [os|e];
    [|reflexivity].
  destruct (set_of (squares_with "gray.gif" (pieces s))) as [es|e];
    reflexivity.
Qed.

Lemma find_simple_move_st_run s :
  find_simple_move_st s = (find_simple_move s, s).
Proof.
  unfold find_simple_move_st, find_simple_move, empty_playable_squares,
    player_pieces, view_st, load_items, st_lift.
  cbv [mbind mret ST_bind ST_ret st_bind st_ret result_bind].
  destruct (set_of (squares_with "gray.gif" (pieces s))) as [es|e];
    reflexivity.
Qed.

(** C5: neither search changes the snapshot it is given; run twice in a
    row on the same snapshot, each returns the same result (or raises the
    same exception) both times; and two snapshots that hold the same
    dictionary get the same answer. *)
Theorem search_pure_deterministic (s s' : BoardState) :
  (find_capture_move_st s).2 = s
  /\ (find_simple_move_st s).2 = s
  /\ (let '(r1, s1) := find_capture_move_st s in
      let '(r2, s2) := find_capture_move_st s1 in
      r1 = r2 /\ s2 = s)
  /\ (let '(r1, s1) := find_simple_move_st s in
      let '(r2, s2) := find_simple_move_st s1 in
      r1 = r2 /\ s2 = s)
  /\ (pieces s = pieces s' ->
      (find_capture_move_st s).1 = (find_capture_move_st s').1
      /\ (find_simple_move_st s).1 = (find_simple_move_st s').1).
Proof.
  assert (Hsame : pieces s = pieces s' -> s = s').
  { destruct s, s'. simpl. now intros ->. }
  rewrite ?find_capture_move_st_run, ?find_simple_move_st_run. simpl.
  rewrite ?find_capture_move_st_run, ?find_simple_move_st_run. simpl.
  repeat split; apply Hsame in H; now subst.
Qed.

Lemma search_pure_deterministic_witness :
  (find_capture_move_st board_scenario_A).1
  = (find_capture_move_st (from_images
       [mkImg (Some "space22") (Some "you1.gif");
        mkImg (Some "space33") (Some "me1.gif");
        mkImg (Some "space44") (Some "gray.gif")])).1
  /\ (find_simple_move_st board_scenario_A).1
     = (find_simple_move_st (from_images
          [mkImg (Some "space22") (Some "you1.gif");
           mkImg (Some "space33") (Some "me1.gif");
           mkImg (Some "space44") (Some "gray.gif")])).1.
Proof.
  apply (search_pure_deterministic board_scenario_A). vm_compute. reflexivity.
Defined.

(** ** The game loop *)

Section GameLoopProperties.

Context {Page : Type} `{Surface Page}.

Lemma wait_for_turn_silent (p : Page) : (wait_for_turn p).1 = [].
Proof.
  unfold wait_for_turn, mbind, IO_bind, io_bind, io_call.
  destruct (wait_for_selector "#message" p) as [p1|e]; reflexivity.
Qed.

Lemma make_moves_body_run (p p1 : Page) :
  (wait_for_turn p).2 = Ok (tt, p1) ->
  make_moves_body p = after_wait p1.
Proof.
  intros Hw. pose proof (wait_for_turn_silent p) as Ht.
  unfold make_moves_body, after_wait.
  unfold mbind at 1. unfold IO_bind at 1. unfold io_bind at 1.
  destruct (wait_for_turn p) as [t r]. simpl in Hw, Ht. subst t r.
  unfold mbind at 1. unfold IO_bind at 1. unfold io_bind at 1.
  unfold from_page at 1.
  unfold mbind at 1. unfold IO_bind at 1. unfold io_bind at 1.
  unfold io_lift at 1.
  destruct (choose_move _) as [[[from_sq to_sq]|]|e]; simpl.
  - match goal with
    | |- _ = ?run => destruct run as [t2 r2]
    end.
    reflexivity.
  - reflexivity.
  - reflexivity.
Qed.

End GameLoopProperties.

Section GameLoopClaims.

Context {Page : Type} `{Surface Page}.

(** C2: when [find_capture_move] returns a move on the turn's snapshot,
    that move is the one the game loop chooses and plays, whatever
    [find_simple_move] would have returned or raised; and on a snapshot
    that holds a valid jump, a move chosen by the loop is always the one
    [find_capture_move] returned. *)
Theorem capture_preferred (p p1 : Page) (st : BoardState) (m : Move) :
  (find_capture_move st = Ok (Some m) -> choose_move st = Ok (Some m))
  /\ (has_jump st -> choose_move st = Ok (Some m) ->
      find_capture_move st = Ok (Some m))
  /\ ((wait_for_turn p).2 = Ok (tt, p1) ->
      find_capture_move (from_images (query_selector_all "#board img" p1))
      = Ok (Some m) ->
      make_moves_body p
      = (perform_move m.1 m.2;;
         io_call (fun p => Ok (wait_for_timeout 500 p));;
         mret Continue) p1).
Proof.
  assert (Hfirst : forall st', find_capture_move st' = Ok (Some m) ->
                               choose_move st' = Ok (Some m)).
  { intros st' Hf. unfold choose_move. now rewrite Hf. }
  split; [apply Hfirst|]. split.
  - intros Hj Hc. unfold choose_move in Hc.
    destruct (find_capture_move st) as [[m'|]|e] eqn:Hf; simpl in Hc.
    + exact Hc.
    + apply find_capture_move_None in Hf as [_ Hno]. contradiction.
    + discriminate.
  - intros Hw Hf. rewrite (make_moves_body_run _ _ Hw). unfold after_wait.
    rewrite (Hfirst _ Hf). now destruct m.
Qed.

(** C7: in an iteration whose snapshot gives [None] for both searches, the
    loop body prints the no-move message, clicks nothing and asks the loop
    to return; the loop, whatever is left of its budget, ends there with
    that single message and zero cell activations. *)
Theorem no_move_ends_game (p p1 : Page) (n : nat) (number_of_moves : Z) :
  (wait_for_turn p).2 = Ok (tt, p1) ->
  find_capture_move (from_images (query_selector_all "#board img" p1))
  = Ok None ->
  find_simple_move (from_images (query_selector_all "#board img" p1))
  = Ok None ->
  make_moves_body p = ([Print no_moves_message], Ok (Return, p1))
  /\ make_moves_loop (S n) p = ([Print no_moves_message], Ok (tt, p1))
  /\ (0 < number_of_moves ->
      make_moves number_of_moves p
      = ([Print no_moves_message], Ok (tt, p1)))
  /\ activations (make_moves_loop (S n) p).1 = 0%nat.
Proof.
  intros Hw Hc Hs.
  assert (Hbody : make_moves_body p
                  = ([Print no_moves_message], Ok (Return, p1))).
  { rewrite (make_moves_body_run _ _ Hw). unfold after_wait, choose_move.
    rewrite Hc. simpl. now rewrite Hs. }
  assert (Hloop : forall k, make_moves_loop (S k) p
                            = ([Print no_moves_message], Ok (tt, p1))).
  { intros k. simpl. unfold mbind, IO_bind, io_bind. now rewrite Hbody. }
  split; [exact Hbody|]. split; [apply Hloop|]. split.
  - intros Hpos. unfold make_moves.
    destruct (Z.to_nat number_of_moves) as [|k] eqn:Hk; [lia | apply Hloop].
  - now rewrite Hloop.
Qed.

End GameLoopClaims.

Lemma capture_preferred_witness :
  choose_move (from_images page_scenario_A) = Ok (Some ((2, 2), (4, 4)))
  /\ find_capture_move (from_images page_scenario_A)
     = Ok (Some ((2, 2), (4, 4)))
  /\ make_moves_body page_scenario_A
     = ((perform_move (2, 2) (4, 4);;
         io_call (fun p => Ok (wait_for_timeout 500 p));;
         mret Continue) : IO control) page_scenario_A.
Proof.
  destruct (capture_preferred page_scenario_A page_scenario_A
              (from_images page_scenario_A) ((2, 2), (4, 4)))
    as (Hfirst & Hjump & Hbody).
  split; [|split].
  - apply Hfirst. vm_compute. reflexivity.
  - apply Hjump.
    + exists 2, 2, 2. vm_compute. intuition (auto; discriminate).
    + vm_compute. reflexivity.
  - apply Hbody; vm_compute; reflexivity.
Defined.

Lemma no_move_ends_game_witness :
  make_moves_body page_scenario_C
  = ([Print no_moves_message], Ok (Return, page_scenario_C))
  /\ make_moves_loop 5 page_scenario_C
     = ([Print no_moves_message], Ok (tt, page_scenario_C))
  /\ make_moves 5 page_scenario_C
     = ([Print no_moves_message], Ok (tt, page_scenario_C))
  /\ activations (make_moves_loop 5 page_scenario_C).1 = 0%nat.
Proof.
  destruct (no_move_ends_game page_scenario_C page_scenario_C 4 5)
    as (Hbody & Hloop & Hmoves & Hact); try (vm_compute; reflexivity).
  split; [exact Hbody|]. split; [exact Hloop|].
  split; [apply Hmoves; lia | exact Hact].
Defined.

(** * Further properties *)

(** ** Decoding identifiers *)

Lemma int_of_char_range c n : int_of_char c = Ok n -> 0 <= n <= 9.
Proof.
  unfold int_of_char.
  destruct ((48 <=? Z.of_N (N_of_ascii c)) && (Z.of_N (N_of_ascii c) <=? 57))
    eqn:Hd; [|discriminate].
  intros [= <-]. lia.
Qed.

Lemma square_of_range name x y :
  square_of name = Ok (x, y) ->
  (7 <= String.length name)%nat /\ 0 <= x <= 9 /\ 0 <= y <= 9.
Proof.
  unfold square_of, str_index.
  destruct name as [|c0 [|c1 [|c2 [|c3 [|c4 [|c5 [|c6 rest]]]]]]]; simpl;
    try discriminate.
  - destruct (int_of_char c5); discriminate.
  - destruct (int_of_char c5) as [a|] eqn:Ha; simpl; [|discriminate].
    destruct (int_of_char c6) as [b|] eqn:Hb; simpl; [|discriminate].
    intros [= <- <-]. apply int_of_char_range in Ha, Hb.
    repeat split; lia.
Qed.

(** X1: a decoded coordinate is a pair of decimal digits read from an
    identifier of at least seven characters; an identifier of at most five
    characters raises [IndexError], and one of six characters raises
    [IndexError] or [ValueError]. *)
Theorem square_of_decodes_digits (name : string) (x y : Z) :
  (square_of name = Ok (x, y) ->
   (7 <= String.length name)%nat /\ 0 <= x <= 9 /\ 0 <= y <= 9)
  /\ ((String.length name <= 5)%nat -> square_of name = Raise IndexError)
  /\ (String.length name = 6%nat ->
      square_of name = Raise IndexError \/ square_of name = Raise ValueError).
Proof.
  split; [apply square_of_range|]. unfold square_of, str_index.
  destruct name as [|c0 [|c1 [|c2 [|c3 [|c4 [|c5 [|c6 rest]]]]]]];
    (split; intros Hlen; simpl in Hlen; try lia); simpl;
    try reflexivity.
  unfold int_of_char.
  destruct ((48 <=? Z.of_N (N_of_ascii c5))
            && (Z.of_N (N_of_ascii c5) <=? 57)); simpl; auto.
Qed.

Lemma square_of_decodes_digits_witness :
  ((7 <= String.length "space47")%nat /\ 0 <= 4 <= 9 /\ 0 <= 7 <= 9)
  /\ square_of "spac" = Raise IndexError
  /\ (square_of "spaceX" = Raise IndexError
      \/ square_of "spaceX" = Raise ValueError).
Proof.
  split; [|split].
  - apply (square_of_decodes_digits "space47" 4 7). reflexivity.
  - apply (square_of_decodes_digits "spac" 0 0). simpl. lia.
  - apply (square_of_decodes_digits "spaceX" 0 0). reflexivity.
Defined.

(** X2: the two cells the loop clicks for a chosen move are named by
    identifiers that decode back to the origin and the destination of the
    move. *)
Theorem chosen_move_cells_decode (st : BoardState) (from_sq to_sq : Square) :
  choose_move st = Ok (Some (from_sq, to_sq)) ->
  square_of (cell_name from_sq.1 from_sq.2) = Ok from_sq
  /\ square_of (cell_name to_sq.1 to_sq.2) = Ok to_sq
  /\ cell_selector from_sq
     = "img[name=" +:+ cell_name from_sq.1 from_sq.2 +:+ "]"
  /\ cell_selector to_sq
     = "img[name=" +:+ cell_name to_sq.1 to_sq.2 +:+ "]".
Proof.
  intros Hc.
  assert (Hmove : yields (player_pieces st) from_sq /\ in_bounds to_sq).
  { unfold choose_move in Hc.
    destruct (find_capture_move st) as [[m|]|e] eqn:Hf; simpl in Hc;
      [|..|discriminate].
    - injection Hc as ->.
      apply find_capture_move_sound in Hf
        as (x & y & dx & (Hp & _ & Hin & _) & [= -> ->]). auto.
    - apply find_simple_move_sound in Hc
        as (x & y & dx & (Hp & _ & Hin & _) & [= -> ->]). auto. }
  destruct Hmove as [Hp [Hx Hy]].
  apply yields_squares_with in Hp as (name & _ & Hdec).
  destruct from_sq as [fx fy], to_sq as [tx ty]. simpl in *.
  apply square_of_range in Hdec as (_ & Hfx & Hfy).
  repeat split.
  - now apply square_of_cell_name.
  - apply square_of_cell_name; lia.
  - apply cell_selector_cell_name.
  - apply cell_selector_cell_name.
Qed.

Lemma chosen_move_cells_decode_witness :
  square_of (cell_name 2 2) = Ok (2, 2)
  /\ square_of (cell_name 4 4) = Ok (4, 4)
  /\ cell_selector (2, 2) = "img[name=" +:+ cell_name 2 2 +:+ "]"
  /\ cell_selector (4, 4) = "img[name=" +:+ cell_name 4 4 +:+ "]".
Proof.
  apply (chosen_move_cells_decode board_scenario_A (2, 2) (4, 4)).
  vm_compute. reflexivity.
Defined.

(** ** Traces of the game loop *)

Lemma activations_app (t1 t2 : list action) :
  activations (t1 ++ t2)%list = (activations t1 + activations t2)%nat.
Proof. unfold activations. now rewrite filter_app, length_app. Qed.

Lemma activations_clicks (selectors : list string) :
  activations (clicks selectors) = length selectors.
Proof.
  unfold activations, clicks.
  induction selectors as [|s l IH]; [reflexivity|].
  change (S (length (filter (fun a => is_click a = true) (map Click l)))
          = S (length l)).
  now rewrite IH.
Qed.

Section GameLoopTraces.

Context {Page : Type} `{Surface Page}.

Lemma make_moves_body_wait_raises (p : Page) e :
  (wait_for_turn p).2 = Raise e -> make_moves_body p = ([], Raise e).
Proof.
  intros Hw. pose proof (wait_for_turn_silent p) as Ht.
  unfold make_moves_body.
  unfold mbind at 1. unfold IO_bind at 1. unfold io_bind at 1.
  destruct (wait_for_turn p) as [t r]. simpl in Hw, Ht. now subst t r.
Qed.

Lemma wait_for_turn_result (p : Page) :
  (exists e, (wait_for_turn p).2 = Raise e)
  \/ (exists p1, (wait_for_turn p).2 = Ok (tt, p1)).
Proof.
  destruct (wait_for_turn p) as [t [[[] p1]|e]]; simpl; eauto.
Qed.

(** What the body does once a move has been chosen. *)
Lemma after_wait_move (p1 : Page) from_sq to_sq :
  choose_move (from_images (query_selector_all "#board img" p1))
  = Ok (Some (from_sq, to_sq)) ->
  after_wait p1
  = match click (cell_selector from_sq) p1 with
    | Raise e => ([Click (cell_selector from_sq)], Raise e)
    | Ok p2 =>
        ([Click (cell_selector from_sq); Click (cell_selector to_sq)],
         match click (cell_selector to_sq) p2 with
         | Raise e => Raise e
         | Ok p3 => Ok (Continue, wait_for_timeout 500 p3)
         end)
    end.
Proof.
  intros Hc. unfold after_wait. rewrite Hc.
  unfold perform_move, mbind, IO_bind, io_bind, io_click, io_call, mret,
    IO_ret, io_ret.
  destruct (click (cell_selector from_sq) p1) as [p2|e]; [|reflexivity].
  destruct (click (cell_selector to_sq) p2) as [p3|e]; reflexivity.
Qed.

(** The five ways one pass through the loop body can go. *)
Lemma make_moves_body_cases (p : Page) :
  (exists e, make_moves_body p = ([], Raise e))
  \/ (exists p1, make_moves_body p
                 = ([Print no_moves_message], Ok (Return, p1)))
  \/ (exists f e, make_moves_body p = (clicks [cell_selector f], Raise e))
  \/ (exists f t e, make_moves_body p
                    = (clicks [cell_selector f; cell_selector t], Raise e))
  \/ (exists f t p', make_moves_body p
                     = (clicks [cell_selector f; cell_selector t],
                        Ok (Continue, p'))).
Proof.
  destruct (wait_for_turn_result p) as [[e Hw]|[p1 Hw]].
  - left. exists e. now apply make_moves_body_wait_raises.
  - rewrite (make_moves_body_run _ _ Hw).
    destruct (choose_move (from_images (query_selector_all "#board img" p1)))
      as [[[from_sq to_sq]|]|e] eqn:Hc.
    + rewrite (after_wait_move _ _ _ Hc).
      destruct (click (cell_selector from_sq) p1) as [p2|e].
      * destruct (click (cell_selector to_sq) p2) as [p3|e].
        -- do 4 right. exists from_sq, to_sq. eauto.
        -- do 3 right. left. exists from_sq, to_sq. eauto.
      * do 2 right. left. exists from_sq. eauto.
    + right. left. exists p1. unfold after_wait. now rewrite Hc.
    + left. exists e. unfold after_wait. now rewrite Hc.
Qed.

Lemma make_moves_loop_step (n : nat) (p : Page) :
  make_moves_loop (S n) p
  = match make_moves_body p with
    | (t1, Ok (Continue, p1)) =>
        let '(t2, r) := make_moves_loop n p1 in ((t1 ++ t2)%list, r)
    | (t1, Ok (Return, p1)) => ((t1 ++ [])%list, Ok (tt, p1))
    | (t1, Raise e) => (t1, Raise e)
    end.
Proof.
  simpl. unfold mbind, IO_bind, io_bind.
  destruct (make_moves_body p) as [t1 [[[] p1]|e]]; reflexivity.
Qed.

Lemma make_moves_loop_shape (n : nat) (p : Page) :
  exists squares,
    (length squares <= 2 * n)%nat
    /\ ((make_moves_loop n p).1 = clicks (map cell_selector squares)
        \/ ((make_moves_loop n p).1
            = (clicks (map cell_selector squares)
               ++ [Print no_moves_message])%list
            /\ exists p', (make_moves_loop n p).2 = Ok (tt, p'))).
Proof.
  revert p. induction n as [|n IH]; intros p.
  - exists []. split; [simpl; lia | now left].
  - rewrite make_moves_loop_step.
    destruct (make_moves_body_cases p)
      as [[e ->]|[[p1 ->]|[(a & e & ->)|[(a & b & e & ->)|(a & b & p' & ->)]]]].
    + exists []. split; [simpl; lia | now left].
    + exists []. split; [simpl; lia|]. right. simpl. eauto.
    + exists [a]. split; [simpl; lia | now left].
    + exists [a; b]. split; [simpl; lia | now left].
    + destruct (IH p') as (l & Hlen & Hl).
      destruct (make_moves_loop n p') as [t2 r]. simpl in *.
      exists (a :: b :: l). split; [simpl; lia|].
      destruct Hl as [->|[-> Hr]]; [now left | right; auto].
Qed.

Lemma make_moves_loop_activations (n : nat) (p : Page) :
  (activations (make_moves_loop n p).1 <= 2 * n)%nat.
Proof.
  destruct (make_moves_loop_shape n p) as (l & Hlen & Hl).
  destruct Hl as [->|[-> _]];
    rewrite ?activations_app, activations_clicks, length_map.
  - lia.
  - change (activations [Print no_moves_message]) with O. lia.
Qed.

(** X3: with a budget of [n] turns the loop clicks at most [2 * n] times,
    and its trace is a run of clicks on board cells (selectors of the form
    the move driver writes), followed by the no-move message only when the
    loop ended normally on it: nothing is clicked after the message and
    the message is printed at most once. *)
Theorem make_moves_trace_shape (n : nat) (p : Page) :
  (activations (make_moves_loop n p).1 <= 2 * n)%nat
  /\ exists squares,
       (make_moves_loop n p).1 = clicks (map cell_selector squares)
       \/ ((make_moves_loop n p).1
           = (clicks (map cell_selector squares)
              ++ [Print no_moves_message])%list
           /\ exists p', (make_moves_loop n p).2 = Ok (tt, p')).
Proof.
  split; [apply make_moves_loop_activations|].
  destruct (make_moves_loop_shape n p) as (l & _ & Hl). eauto.
Qed.

(** X4: a budget of zero or less does nothing at all: no wait, no click,
    no message, and the page is left as it was. *)
Theorem make_moves_no_budget (number_of_moves : Z) (p : Page) :
  number_of_moves <= 0 ->
  make_moves number_of_moves p = ([], Ok (tt, p)).
Proof.
  intros Hn. unfold make_moves.
  replace (Z.to_nat number_of_moves) with O by lia. reflexivity.
Qed.

(** X5: when the wait for the turn gives up, or when a search raises on
    the turn's snapshot, the loop ends with that exception whatever is
    left of its budget, without a click and without a message. *)
Theorem make_moves_stops_on_exception (n : nat) (p p1 : Page) (e : exn) :
  ((wait_for_turn p).2 = Raise e ->
   make_moves_loop (S n) p = ([], Raise e))
  /\ ((wait_for_turn p).2 = Ok (tt, p1) ->
      choose_move (from_images (query_selector_all "#board img" p1))
      = Raise e ->
      make_moves_loop (S n) p = ([], Raise e)).
Proof.
  split.
  - intros Hw. rewrite make_moves_loop_step.
    now rewrite (make_moves_body_wait_raises _ _ Hw).
  - intros Hw Hc. rewrite make_moves_loop_step.
    rewrite (make_moves_body_run _ _ Hw). unfold after_wait.
    now rewrite Hc.
Qed.

(** X6: when the click on the origin of the chosen move fails, the
    destination is never clicked: the loop ends with the exception after
    that single click. *)
Theorem origin_click_failure_stops (n : nat) (p p1 : Page)
    (from_sq to_sq : Square) (e : exn) :
  (wait_for_turn p).2 = Ok (tt, p1) ->
  choose_move (from_images (query_selector_all "#board img" p1))
  = Ok (Some (from_sq, to_sq)) ->
  click (cell_selector from_sq) p1 = Raise e ->
  make_moves_loop (S n) p = ([Click (cell_selector from_sq)], Raise e).
Proof.
  intros Hw Hc Hclick. rewrite make_moves_loop_step.
  rewrite (make_moves_body_run _ _ Hw), (after_wait_move _ _ _ Hc).
  now rewrite Hclick.
Qed.

(** X7: run after the loop, as the demo does, [restart_game] clicks the
    restart control only when the loop ended without an exception, and
    that click is then the last one; the two together click at most
    [2 * n + 1] times. *)
Theorem restart_after_moves (n : nat) (p : Page) :
  let session : IO unit := make_moves_loop n;; restart_game in
  (forall e, (make_moves_loop n p).2 = Raise e ->
             session p = make_moves_loop n p)
  /\ (forall p1, (make_moves_loop n p).2 = Ok (tt, p1) ->
                 (session p).1
                 = ((make_moves_loop n p).1 ++ [Click "text=Restart..."])%list
                 /\ (forall p2, click "text=Restart..." p1 = Ok p2 ->
                       (session p).2
                       = match wait_for_function piece_count_script p2 with
                         | Ok p3 => Ok (tt, p3)
                         | Raise e => Raise e
                         end))
  /\ (activations (session p).1 <= 2 * n + 1)%nat.
Proof.
  intros session.
  pose proof (make_moves_loop_activations n p) as Hact.
  unfold session, mbind, IO_bind, io_bind.
  destruct (make_moves_loop n p) as [t1 [[[] p1]|e]]; simpl in *.
  - assert (Hr : (restart_game p1).1 = [Click "text=Restart..."]).
    { unfold restart_game, mbind, IO_bind, io_bind, io_click, io_call.
      destruct (click "text=Restart..." p1); reflexivity. }
    destruct (restart_game p1) as [t2 r] eqn:Hrun. simpl in Hr. subst t2.
    split; [discriminate|]. split.
    + intros p' [= <-]. split; [reflexivity|]. intros p2 Hclick.
      revert Hrun.
      unfold restart_game, mbind, IO_bind, io_bind, io_click, io_call.
      rewrite Hclick. simpl. now intros [= <-].
    + cbn [fst]. rewrite activations_app.
      change (activations [Click "text=Restart..."]) with 1%nat. lia.
  - split; [now intros e' _|]. split; [discriminate | lia].
Qed.

End GameLoopTraces.

Lemma make_moves_no_budget_witness :
  make_moves (-3) page_scenario_A = ([], Ok (tt, page_scenario_A)).
Proof. apply (make_moves_no_budget (-3) page_scenario_A). lia. Defined.

Lemma make_moves_stops_on_exception_witness :
  @make_moves_loop _ stalled_surface 5 page_scenario_A
  = ([], Raise TimeoutError)
  /\ make_moves_loop 5 page_short_name = ([], Raise IndexError).
Proof.
  split.
  - destruct (@make_moves_stops_on_exception _ stalled_surface 4
                page_scenario_A page_scenario_A TimeoutError) as [Hwait _].
    apply Hwait. reflexivity.
  - destruct (make_moves_stops_on_exception 4 page_short_name
                page_short_name IndexError) as [_ Hsearch].
    apply Hsearch; reflexivity.
Defined.

Lemma origin_click_failure_stops_witness :
  @make_moves_loop _ dead_surface 5 page_scenario_A
  = ([Click (cell_selector (2, 2))], Raise TimeoutError).
Proof.
  apply (@origin_click_failure_stops _ dead_surface 4 page_scenario_A
           page_scenario_A (2, 2) (4, 4) TimeoutError);
    vm_compute; reflexivity.
Defined.

Lemma restart_after_moves_witness :
  (@make_moves_loop _ dead_surface 5;; @restart_game _ dead_surface)
    page_scenario_A
  = @make_moves_loop _ dead_surface 5 page_scenario_A
  /\ ((make_moves_loop 1;; restart_game) page_scenario_C).1
     = ((make_moves_loop 1 page_scenario_C).1
        ++ [Click "text=Restart..."])%list.
Proof.
  split.
  - destruct (@restart_after_moves _ dead_surface 5 page_scenario_A)
      as (Hraise & _ & _).
    apply (Hraise TimeoutError). vm_compute. reflexivity.
  - destruct (restart_after_moves 1 page_scenario_C) as (_ & Hok & _).
    apply (Hok page_scenario_C). vm_compute. reflexivity.
Defined.

(** ** Order and laziness of the searches *)

Lemma for_gen_first {A B : Type} (body : A -> option B) (g : gen A) b :
  for_gen g body = Ok (Some b) ->
  exists earlier a,
    starts_with g (earlier ++ [a])%list
    /\ (forall a', In a' earlier -> body a' = None)
    /\ body a = Some b.
Proof.
  induction g as [|a rest IH|e]; simpl; [discriminate| |discriminate].
  destruct (body a) as [b'|] eqn:Hb.
  - intros [= <-]. exists [], a.
    split; [simpl; tauto|]. split; [intros a' [] | exact Hb].
  - intros Hrest. destruct (IH Hrest) as (earlier & a0 & Hs & Hnone & Ha0).
    exists (a :: earlier), a0.
    split; [simpl; tauto|]. split; [|exact Ha0].
    intros a' [<-|Hin]; auto.
Qed.

Lemma for_tuple_pair {B : Type} (body : Z -> option B) (d1 d2 : Z) b :
  for_tuple [d1; d2] body = Some b ->
  body d1 = Some b \/ (body d1 = None /\ body d2 = Some b).
Proof.
  simpl. destruct (body d1); [now left|].
  destruct (body d2); [|discriminate]. now right.
Qed.

(** X8: on a snapshot whose views can be enumerated, no search raises:
    each returns a move or [None]. *)
Theorem searches_return_when_readable (st : BoardState) :
  readable st ->
  (exists r, find_capture_move st = Ok r)
  /\ (exists r, find_simple_move st = Ok r)
  /\ (exists r, choose_move st = Ok r).
Proof.
  intros (Hp & Ho & He).
  apply set_of_exhausts in Ho as [os Ho].
  apply set_of_exhausts in He as [es He].
  assert (Hc : exists r, find_capture_move st = Ok r).
  { rewrite (find_capture_move_sets _ _ _ Ho He). now apply for_gen_total. }
  assert (Hs : exists r, find_simple_move st = Ok r).
  { rewrite (find_simple_move_sets _ _ He). now apply for_gen_total. }
  split; [exact Hc|]. split; [exact Hs|].
  destruct Hc as [[m|] Hc]; unfold choose_move; rewrite Hc; simpl; eauto.
Qed.

Lemma searches_return_when_readable_witness :
  (exists r, find_capture_move board_corner = Ok r)
  /\ (exists r, find_simple_move board_corner = Ok r)
  /\ (exists r, choose_move board_corner = Ok r).
Proof.
  apply (searches_return_when_readable board_corner). vm_compute. tauto.
Defined.

(** X9: the capture returned is the first in the order of enumeration:
    no player piece yielded before the one that moves has a valid jump,
    and the piece jumps to the right only when it cannot jump to the
    left. *)
Theorem find_capture_first_in_order (st : BoardState) (m : Move) :
  find_capture_move st = Ok (Some m) ->
  exists earlier x y dx,
    starts_with (player_pieces st) (earlier ++ [(x, y)])%list
    /\ m = ((x, y), (x + dx, y + 2))
    /\ valid_jump st x y dx
    /\ (forall sq dx', In sq earlier -> ~ valid_jump st sq.1 sq.2 dx')
    /\ (dx = 2 -> ~ valid_jump st x y (-2)).
Proof.
  intros Hf. destruct (find_capture_move_Ok _ _ Hf) as (os & es & Ho & He).
  pose proof Hf as Hrun. rewrite (find_capture_move_sets _ _ _ Ho He) in Hrun.
  apply for_gen_first in Hrun as (earlier & [x y] & Hs & Hnone & Hb).
  assert (Hno : forall x0 y0 dx0,
             capture_from os es (x0, y0) dx0 = None ->
             ~ valid_jump st x0 y0 dx0).
  { intros x0 y0 dx0 Hc (_ & _ & Hin & Hdest & Hmid).
    assert (Hsome : capture_from os es (x0, y0) dx0
                    = Some ((x0, y0), (x0 + dx0, y0 + 2))).
    { apply capture_from_spec. repeat split; try apply Hin.
      - now apply (set_of_elem _ _ Ho).
      - now apply (set_of_elem _ _ He). }
    congruence. }
  assert (Hyes : forall dx0 m0,
             (dx0 = -2 \/ dx0 = 2) ->
             capture_from os es (x, y) dx0 = Some m0 ->
             m0 = ((x, y), (x + dx0, y + 2)) /\ valid_jump st x y dx0).
  { intros dx0 m0 Hdx Hc.
    apply capture_from_spec in Hc as (Hin & Hmid & Hdest & ->).
    split; [reflexivity|]. repeat split; try apply Hin; auto.
    - clear -Hs. revert Hs. generalize (player_pieces st).
      induction earlier as [|a l IH]; simpl; intros g Hs.
      + destruct g; try tauto. left. now destruct Hs.
      + destruct g; try tauto. right. apply IH. tauto.
    - now apply (set_of_elem _ _ He).
    - now apply (set_of_elem _ _ Ho). }
  assert (Hearlier : forall sq dx', In sq earlier ->
                                    ~ valid_jump st sq.1 sq.2 dx').
  { intros [x0 y0] dx' Hin Hv. simpl in Hv.
    specialize (Hnone _ Hin).
    assert (Hdx : In dx' [-2; 2]).
    { destruct Hv as (_ & [->| ->] & _); simpl; auto. }
    eapply Hno; [|exact Hv].
    eapply for_tuple_none; [exact Hnone | exact Hdx]. }
  apply for_tuple_pair in Hb as [Hb|[Hleft Hb]].
  - destruct (Hyes (-2) m (or_introl eq_refl) Hb) as [-> Hv].
    exists earlier, x, y, (-2).
    repeat split; auto; try apply Hv; try discriminate.
  - destruct (Hyes 2 m (or_intror eq_refl) Hb) as [-> Hv].
    exists earlier, x, y, 2.
    repeat split; auto; try apply Hv; try (intros _; now apply Hno).
Qed.

Lemma find_capture_first_in_order_witness :
  exists earlier x y dx,
    starts_with (player_pieces board_scenario_A) (earlier ++ [(x, y)])%list
    /\ ((2, 2), (4, 4)) = ((x, y), (x + dx, y + 2))
    /\ valid_jump board_scenario_A x y dx
    /\ (forall sq dx', In sq earlier ->
                       ~ valid_jump board_scenario_A sq.1 sq.2 dx')
    /\ (dx = 2 -> ~ valid_jump board_scenario_A x y (-2)).
Proof.
  apply (find_capture_first_in_order board_scenario_A ((2, 2), (4, 4))).
  vm_compute. reflexivity.
Defined.

(** X10: the simple move returned is the first in the order of
    enumeration: no player piece yielded before the one that moves has a
    valid step, and the piece steps to the right only when it cannot step
    to the left. *)
Theorem find_simple_first_in_order (st : BoardState) (m : Move) :
  find_simple_move st = Ok (Some m) ->
  exists earlier x y dx,
    starts_with (player_pieces st) (earlier ++ [(x, y)])%list
    /\ m = ((x, y), (x + dx, y + 1))
    /\ valid_step st x y dx
    /\ (forall sq dx', In sq earlier -> ~ valid_step st sq.1 sq.2 dx')
    /\ (dx = 1 -> ~ valid_step st x y (-1)).
Proof.
  intros Hf. destruct (find_simple_move_Ok _ _ Hf) as (es & He).
  pose proof Hf as Hrun. rewrite (find_simple_move_sets _ _ He) in Hrun.
  apply for_gen_first in Hrun as (earlier & [x y] & Hs & Hnone & Hb).
  assert (Hno : forall x0 y0 dx0,
             simple_from es (x0, y0) dx0 = None ->
             ~ valid_step st x0 y0 dx0).
  { intros x0 y0 dx0 Hc (_ & _ & Hin & Hdest).
    assert (Hsome : simple_from es (x0, y0) dx0
                    = Some ((x0, y0), (x0 + dx0, y0 + 1))).
    { apply simple_from_spec. repeat split; try apply Hin.
      now apply (set_of_elem _ _ He). }
    congruence. }
  assert (Hyes : forall dx0 m0,
             (dx0 = -1 \/ dx0 = 1) ->
             simple_from es (x, y) dx0 = Some m0 ->
             m0 = ((x, y), (x + dx0, y + 1)) /\ valid_step st x y dx0).
  { intros dx0 m0 Hdx Hc.
    apply simple_from_spec in Hc as (Hin & Hdest & ->).
    split; [reflexivity|]. repeat split; try apply Hin; auto.
    - clear -Hs. revert Hs. generalize (player_pieces st).
      induction earlier as [|a l IH]; simpl; intros g Hs.
      + destruct g; try tauto. left. now destruct Hs.
      + destruct g; try tauto. right. apply IH. tauto.
    - now apply (set_of_elem _ _ He). }
  assert (Hearlier : forall sq dx', In sq earlier ->
                                    ~ valid_step st sq.1 sq.2 dx').
  { intros [x0 y0] dx' Hin Hv. simpl in Hv.
    specialize (Hnone _ Hin).
    assert (Hdx : In dx' [-1; 1]).
    { destruct Hv as (_ & [->| ->] & _); simpl; auto. }
    eapply Hno; [|exact Hv].
    eapply for_tuple_none; [exact Hnone | exact Hdx]. }
  apply for_tuple_pair in Hb as [Hb|[Hleft Hb]].
  - destruct (Hyes (-1) m (or_introl eq_refl) Hb) as [-> Hv].
    exists earlier, x, y, (-1).
    repeat split; auto; try apply Hv; try discriminate.
  - destruct (Hyes 1 m (or_intror eq_refl) Hb) as [-> Hv].
    exists earlier, x, y, 1.
    repeat split; auto; try apply Hv; try (intros _; now apply Hno).
Qed.

Lemma find_simple_first_in_order_witness :
  exists earlier x y dx,
    starts_with (player_pieces board_scenario_B) (earlier ++ [(x, y)])%list
    /\ ((2, 2), (1, 3)) = ((x, y), (x + dx, y + 1))
    /\ valid_step board_scenario_B x y dx
    /\ (forall sq dx', In sq earlier ->
                       ~ valid_step board_scenario_B sq.1 sq.2 dx')
    /\ (dx = 1 -> ~ valid_step board_scenario_B x y (-1)).
Proof.
  apply (find_simple_first_in_order board_scenario_B ((2, 2), (1, 3))).
  vm_compute. reflexivity.
Defined.

Lemma squares_with_app_other token (d extra : dict) :
  Forall (fun entry => entry.2 <> token) extra ->
  squares_with token (d ++ extra)%list = squares_with token d.
Proof.
  intros Hextra. induction d as [|[name src] d IH]; simpl.
  - induction Hextra as [|[name src] extra Hne _ IH]; simpl; [reflexivity|].
    simpl in Hne. apply String.eqb_neq in Hne. now rewrite Hne.
  - now rewrite IH.
Qed.

Lemma for_gen_squares_with_app {B : Type} token (d extra : dict)
    (body : Square -> option B) b :
  for_gen (squares_with token d) body = Ok (Some b) ->
  for_gen (squares_with token (d ++ extra)%list) body = Ok (Some b).
Proof.
  induction d as [|[name src] d IH]; simpl; [discriminate|].
  destruct (String.eqb src token); [|exact IH].
  destruct (square_of name) as [sq|e]; simpl; [|discriminate].
  destruct (body sq); auto.
Qed.

(** X11: the player view is read lazily: once a search has found its
    move, player entries that come later in the snapshot are never
    decoded, so appending player entries, even with identifiers that do
    not decode, does not change the move returned. *)
Theorem later_players_never_decoded (d extra : dict) (m : Move) :
  Forall (fun entry => entry.2 = "you1.gif") extra ->
  (find_capture_move (mkBoardState d) = Ok (Some m) ->
   find_capture_move (mkBoardState (d ++ extra)%list) = Ok (Some m))
  /\ (find_simple_move (mkBoardState d) = Ok (Some m) ->
      find_simple_move (mkBoardState (d ++ extra)%list) = Ok (Some m)).
Proof.
  intros Hextra.
  assert (Hother : forall token, token <> "you1.gif" ->
             squares_with token (d ++ extra)%list = squares_with token d).
  { intros token Hne. apply squares_with_app_other.
    eapply Forall_impl; [exact Hextra|]. simpl. intros entry -> Heq.
    now apply Hne. }
  split; intros Hf.
  - destruct (find_capture_move_Ok _ _ Hf) as (os & es & Ho & He).
    rewrite (find_capture_move_sets _ _ _ Ho He) in Hf.
    rewrite (find_capture_move_sets _ os es).
    + now apply for_gen_squares_with_app.
    + unfold opponent_pieces in *. simpl in *.
      now rewrite Hother by discriminate.
    + unfold empty_playable_squares in *. simpl in *.
      now rewrite Hother by discriminate.
  - destruct (find_simple_move_Ok _ _ Hf) as (es & He).
    rewrite (find_simple_move_sets _ _ He) in Hf.
    rewrite (find_simple_move_sets _ es).
    + now apply for_gen_squares_with_app.
    + unfold empty_playable_squares in *. simpl in *.
      now rewrite Hother by discriminate.
Qed.

Lemma later_players_never_decoded_witness :
  find_capture_move
    (mkBoardState (pieces board_scenario_A ++ [("x", "you1.gif")])%list)
  = Ok (Some ((2, 2), (4, 4)))
  /\ find_simple_move
       (mkBoardState (pieces board_scenario_B ++ [("x", "you1.gif")])%list)
     = Ok (Some ((2, 2), (1, 3))).
Proof.
  split.
  - apply (later_players_never_decoded (pieces board_scenario_A)
             [("x", "you1.gif")] ((2, 2), (4, 4))).
    + repeat constructor.
    + vm_compute. reflexivity.
  - apply (later_players_never_decoded (pieces board_scenario_B)
             [("x", "you1.gif")] ((2, 2), (1, 3))).
    + repeat constructor.
    + vm_compute. reflexivity.
Defined.

(** ** Keys of the snapshot *)

Lemma fold_from_page_step_keys_mono images d n :
  In n (keys d) -> In n (keys (fold_left from_page_step images d)).
Proof.
  revert d. induction images as [|im images IH]; simpl; intros d Hin;
    [exact Hin|].
  apply IH. destruct (from_page_step_cases im) as [->|(k & _ & _ & ->)];
    [exact Hin | now apply In_keys_dict_setitem].
Qed.

Lemma fold_from_page_step_keys_named images d im n :
  In im images -> img_name im = Some n -> n <> "" ->
  In n (keys (fold_left from_page_step images d)).
Proof.
  revert d. induction images as [|im' images IH]; simpl; intros d Hin Hn Hne;
    [destruct Hin|].
  destruct Hin as [->|Hin]; [|now apply (IH _ Hin)].
  apply fold_from_page_step_keys_mono.
  destruct im as [name src]. simpl in Hn. subst name.
  rewrite from_page_step_named by assumption.
  apply In_keys_dict_setitem_same.
Qed.

Lemma fold_from_page_step_length images d :
  (length (fold_left from_page_step images d)
   <= length d + length images)%nat.
Proof.
  revert d. induction images as [|im images IH]; simpl; intros d; [lia|].
  specialize (IH (from_page_step d im)).
  assert (Hstep : (length (from_page_step d im) <= S (length d))%nat).
  { destruct (from_page_step_cases im) as [->|(k & _ & _ & ->)]; [lia|].
    generalize (filename_of (img_src im)). intros v. clear.
    induction d as [|[k0 v0] d IHd]; simpl; [lia|].
    destruct (String.eqb k0 k); simpl; lia. }
  lia.
Qed.

(** X12: the keys of a snapshot are exactly the non-empty names carried
    by the elements of the page: no identifier is invented, none is lost,
    the empty identifier is never a key; and the snapshot has at most as
    many entries as the page has elements. *)
Theorem from_images_keys (images : list img) (n : string) :
  (In n (keys (pieces (from_images images)))
   <-> n <> "" /\ exists im, In im images /\ img_name im = Some n)
  /\ (length (pieces (from_images images)) <= length images)%nat.
Proof.
  split; [split|].
  - intros Hin. apply in_map_iff in Hin as ([k v] & Hk & Hin).
    simpl in Hk. subst k.
    apply fold_from_page_step_In in Hin
      as [[]|(im & Him & Hn & Hne & _)].
    eauto.
  - intros (Hne & im & Him & Hn).
    now apply (fold_from_page_step_keys_named _ _ im).
  - apply (fold_from_page_step_length images []).
Qed.

(** ** Content of a cell *)

Lemma split_slash_no_slash s :
  contains_slash s = false -> split_slash s = [s].
Proof.
  induction s as [|c s IH]; simpl; [reflexivity|].
  destruct (Ascii.eqb c "/"); simpl; [discriminate|].
  intros Hs. now rewrite (IH Hs).
Qed.

Lemma split_slash_not_nil s : split_slash s <> [].
Proof.
  destruct s as [|c s]; simpl; [discriminate|].
  destruct (Ascii.eqb c "/"); [discriminate|].
  destruct (split_slash s); discriminate.
Qed.

Lemma last_cons_not_nil {A : Type} (x : A) (l : list A) (d : A) :
  l <> [] -> List.last (x :: l) d = List.last l d.
Proof. destruct l; [congruence | reflexivity]. Qed.

Lemma last_split_slash_app dir file :
  List.last (split_slash (dir +:+ String "/" file)) ""
  = List.last (split_slash file) "".
Proof.
  induction dir as [|c dir IH].
  - change (List.last (split_slash (String "/" file)) ""
            = List.last (split_slash file) "").
    simpl. apply last_cons_not_nil, split_slash_not_nil.
  - change (List.last (split_slash (String c (dir +:+ String "/" file))) ""
            = List.last (split_slash file) "").
    rewrite <- IH. simpl.
    destruct (Ascii.eqb c "/").
    + apply last_cons_not_nil, split_slash_not_nil.
    + destruct (split_slash (dir +:+ String "/" file)) as [|piece rest] eqn:Hs.
      * now apply split_slash_not_nil in Hs.
      * destruct rest as [|piece' rest]; [|reflexivity].
        exfalso. clear -Hs. revert piece Hs.
        induction dir as [|c' dir IHd]; intros piece.
        -- change (split_slash (String "/" file) = [piece] -> False).
           simpl. intros [= _ Hnil]. now apply split_slash_not_nil in Hnil.
        -- change (split_slash (String c' (dir +:+ String "/" file))
                   = [piece] -> False).
           simpl. destruct (Ascii.eqb c' "/").
           ++ intros [= _ Hnil]. now apply split_slash_not_nil in Hnil.
           ++ destruct (split_slash (dir +:+ String "/" file))
                as [|q [|q' rest]] eqn:Hq; try discriminate.
              ** intros _. now apply split_slash_not_nil in Hq.
              ** intros _. now apply (IHd q).
Qed.

Lemma split_slash_pieces s :
  Forall (fun piece => contains_slash piece = false) (split_slash s).
Proof.
  induction s as [|c s IH]; simpl; [repeat constructor|].
  destruct (Ascii.eqb c "/") eqn:Hc; [constructor; auto|].
  destruct (split_slash s) as [|piece rest]; [repeat constructor; simpl|].
  - now rewrite Hc.
  - inversion IH as [|? ? Hp Hrest]; subst. constructor; [|exact Hrest].
    simpl. now rewrite Hc.
Qed.

(** X13: the content of a cell is the last path segment of [src]: a file
    name without a slash is recovered from behind any directory part, a
    [src] without a slash is its own content, and a content never holds a
    slash. *)
Theorem filename_of_last_segment (dir file : string) (src : option string) :
  (contains_slash file = false ->
   filename_of (Some (dir +:+ "/" +:+ file)) = file
   /\ filename_of (Some file) = file)
  /\ contains_slash (filename_of src) = false.
Proof.
  split.
  - intros Hfile. split.
    + unfold filename_of.
      assert (Htruthy : str_truthy (dir +:+ "/" +:+ file) = true)
        by (destruct dir; reflexivity).
      rewrite Htruthy.
      change (dir +:+ "/" +:+ file) with (dir +:+ String "/" file).
      rewrite last_split_slash_app.
      now rewrite (split_slash_no_slash _ Hfile).
    + unfold filename_of. destruct file as [|c file]; [reflexivity|].
      simpl str_truthy. cbv iota.
      now rewrite (split_slash_no_slash _ Hfile).
  - unfold filename_of. destruct src as [s|]; [|reflexivity].
    destruct (str_truthy s); [|reflexivity].
    pose proof (split_slash_pieces s) as Hall.
    pose proof (split_slash_not_nil s) as Hne.
    induction Hall as [|piece rest Hp Hrest IH]; [congruence|].
    destruct rest as [|piece' rest]; [exact Hp|].
    apply IH. discriminate.
Qed.

Lemma filename_of_last_segment_witness :
  filename_of (Some ("https://www.gamesforthebrain.com/game/checkers"
                     +:+ "/" +:+ "you1.gif")) = "you1.gif"
  /\ filename_of (Some "you1.gif") = "you1.gif".
Proof.
  apply (filename_of_last_segment
           "https://www.gamesforthebrain.com/game/checkers" "you1.gif" None).
  reflexivity.
Defined.

(** ** Blackjack hands *)

Lemma fold_left_add_shift (l : list Z) (a : Z) :
  fold_left Z.add l a = a + fold_left Z.add l 0.
Proof.
  revert a. induction l as [|x l IH]; intros a; simpl; [lia|].
  rewrite (IH (a + x)), (IH (0 + x)). lia.
Qed.

Lemma sum_cons (x : Z) (l : list Z) :
  CardGame.sum (x :: l) = x + CardGame.sum l.
Proof.
  unfold CardGame.sum. simpl. rewrite fold_left_add_shift. lia.
Qed.

Lemma sum_Permutation (l l' : list Z) :
  Permutation l l' -> CardGame.sum l = CardGame.sum l'.
Proof.
  induction 1 as [|x l l' _ IH|x y l|l1 l2 l3 _ IH1 _ IH2];
    rewrite ?sum_cons; lia.
Qed.

(** The loop stops at the first total that is at most 21, or when no ace
    is left to downgrade. *)
Lemma downgrade_spec (ace_count : nat) (total : Z) :
  (exists j : nat, (j <= ace_count)%nat
                   /\ CardGame.downgrade ace_count total
                      = total - 10 * Z.of_nat j)
  /\ (CardGame.downgrade ace_count total <= 21
      \/ CardGame.downgrade ace_count total
         = total - 10 * Z.of_nat ace_count)
  /\ (forall j : nat, (j <= ace_count)%nat ->
        total - 10 * Z.of_nat j <= 21 ->
        total - 10 * Z.of_nat j <= CardGame.downgrade ace_count total).
Proof.
  revert total. induction ace_count as [|k IH]; intros total; simpl.
  - split; [exists O; split; [lia | simpl; lia]|].
    split; [right; simpl; lia|].
    intros j Hj _. replace j with O by lia. simpl. lia.
  - destruct (Z.ltb_spec 21 total) as [Hbust|Hfine].
    + destruct (IH (total - 10)) as ((j & Hj & Heq) & Hstop & Hbest).
      split; [exists (S j); split; [lia | rewrite Heq; lia]|].
      split; [destruct Hstop as [Hle|Heq']; [now left | right; lia]|].
      intros j' Hj' Hle. destruct j' as [|j']; [simpl in Hle; lia|].
      specialize (Hbest j' ltac:(lia)). lia.
    + split; [exists O; split; [lia | simpl; lia]|].
      split; [now left|]. intros j Hj Hle. lia.
Qed.

Section HandProperties.

Variable py_int : string -> CardGame.outcome Z.

Lemma hand_total_inv (cards : list CardGame.card) (t : Z) :
  CardGame.hand_total py_int cards = CardGame.Return t ->
  exists points aces,
    CardGame.points_of py_int cards = CardGame.Return points
    /\ CardGame.count_aces cards = CardGame.Return aces
    /\ t = CardGame.downgrade aces (CardGame.sum points).
Proof.
  unfold CardGame.hand_total.
  destruct (CardGame.points_of py_int cards) as [points|e]; simpl;
    [|discriminate].
  destruct (CardGame.count_aces cards) as [aces|e]; simpl; [|discriminate].
  intros [= <-]. eauto.
Qed.

Lemma hand_total_run (cards : list CardGame.card) points aces :
  CardGame.points_of py_int cards = CardGame.Return points ->
  CardGame.count_aces cards = CardGame.Return aces ->
  CardGame.hand_total py_int cards
  = CardGame.Return (CardGame.downgrade aces (CardGame.sum points)).
Proof.
  intros Hp Ha. unfold CardGame.hand_total. rewrite Hp. simpl.
  now rewrite Ha.
Qed.

(** X14: the total of a hand is the best one that downgrading aces can
    give: it is the raw sum less ten for some of the aces; when some
    number of downgrades brings the sum to 21 or less, the total is at
    most 21 and no such choice gives more; and a total above 21 has every
    ace counted as one. *)
Theorem hand_total_best (cards : list CardGame.card) (t : Z) :
  CardGame.hand_total py_int cards = CardGame.Return t ->
  exists points aces,
    CardGame.points_of py_int cards = CardGame.Return points
    /\ CardGame.count_aces cards = CardGame.Return aces
    /\ (exists j : nat, (j <= aces)%nat
                        /\ t = CardGame.sum points - 10 * Z.of_nat j)
    /\ (forall j : nat, (j <= aces)%nat ->
          CardGame.sum points - 10 * Z.of_nat j <= 21 ->
          CardGame.sum points - 10 * Z.of_nat j <= t /\ t <= 21)
    /\ (21 < t -> t = CardGame.sum points - 10 * Z.of_nat aces).
Proof.
  intros Ht. apply hand_total_inv in Ht as (points & aces & Hp & Ha & ->).
  exists points, aces. split; [exact Hp|]. split; [exact Ha|].
  destruct (downgrade_spec aces (CardGame.sum points))
    as ((j & Hj & Heq) & Hstop & Hbest).
  split; [eauto|]. split.
  - intros j' Hj' Hle. split; [now apply Hbest|].
    destruct Hstop as [Hle'|Heq']; [exact Hle'|]. rewrite Heq'. lia.
  - intros Hbust. destruct Hstop as [Hle|Heq']; [lia | exact Heq'].
Qed.

(** X15: a hand has blackjack exactly when its raw sum, less ten for some
    number of its aces, is 21. *)
Theorem has_blackjack_iff (cards : list CardGame.card) :
  CardGame.has_blackjack py_int cards = CardGame.Return true
  <-> exists points aces (j : nat),
        CardGame.points_of py_int cards = CardGame.Return points
        /\ CardGame.count_aces cards = CardGame.Return aces
        /\ (j <= aces)%nat
        /\ CardGame.sum points - 10 * Z.of_nat j = 21.
Proof.
  unfold CardGame.has_blackjack. split.
  - destruct (CardGame.hand_total py_int cards) as [t|e] eqn:Ht; simpl;
      [|discriminate].
    intros [= Heq]. apply Z.eqb_eq in Heq. subst t.
    apply hand_total_inv in Ht as (points & aces & Hp & Ha & Ht).
    destruct (downgrade_spec aces (CardGame.sum points))
      as ((j & Hj & Heq) & _).
    exists points, aces, j. repeat split; auto. lia.
  - intros (points & aces & j & Hp & Ha & Hj & Heq).
    rewrite (hand_total_run _ _ _ Hp Ha). simpl.
    destruct (downgrade_spec aces (CardGame.sum points))
      as (_ & Hstop & Hbest).
    specialize (Hbest j Hj ltac:(lia)).
    f_equal. apply Z.eqb_eq.
    destruct Hstop as [Hle|Heq']; lia.
Qed.

Lemma points_of_Permutation (cards cards' : list CardGame.card) points :
  Permutation cards cards' ->
  CardGame.points_of py_int cards = CardGame.Return points ->
  exists points',
    CardGame.points_of py_int cards' = CardGame.Return points'
    /\ Permutation points points'.
Proof.
  intros Hperm. revert points.
  induction Hperm as [|c l l' _ IH|c1 c2 l|l1 l2 l3 _ IH1 _ IH2];
    intros points; simpl.
  - intros [= <-]. eauto.
  - destruct (CardGame.getitem c "value") as [v|]; simpl; [|discriminate].
    destruct (CardGame.card_point_value py_int v) as [p|]; simpl;
      [|discriminate].
    destruct (CardGame.points_of py_int l) as [ps|] eqn:Hl; simpl;
      [|discriminate].
    intros [= <-]. destruct (IH ps eq_refl) as (ps' & -> & Hps).
    simpl. eexists. split; [reflexivity | now apply perm_skip].
  - destruct (CardGame.getitem c1 "value") as [v1|];
      destruct (CardGame.getitem c2 "value") as [v2|]; simpl;
      try discriminate;
      try destruct (CardGame.card_point_value py_int v1) as [p1|];
      try destruct (CardGame.card_point_value py_int v2) as [p2|]; simpl;
      try discriminate.
    destruct (CardGame.points_of py_int l) as [ps|]; simpl;
      [|discriminate].
    intros [= <-]. eexists. split; [reflexivity | apply perm_swap].
  - intros H1. destruct (IH1 _ H1) as (ps2 & H2 & Hp12).
    destruct (IH2 _ H2) as (ps3 & H3 & Hp23).
    eauto using Permutation_trans.
Qed.

Lemma count_aces_Permutation (cards cards' : list CardGame.card) aces :
  Permutation cards cards' ->
  CardGame.count_aces cards = CardGame.Return aces ->
  CardGame.count_aces cards' = CardGame.Return aces.
Proof.
  intros Hperm. revert aces.
  induction Hperm as [|c l l' _ IH|c1 c2 l|l1 l2 l3 _ IH1 _ IH2];
    intros aces; simpl; auto.
  - destruct (CardGame.getitem c "value") as [v|]; simpl; [|discriminate].
    destruct (CardGame.count_aces l) as [n|]; simpl; [|discriminate].
    now rewrite (IH n eq_refl).
  - destruct (CardGame.getitem c1 "value") as [v1|];
      destruct (CardGame.getitem c2 "value") as [v2|]; simpl;
      try discriminate;
      destruct (CardGame.count_aces l) as [n|]; simpl; try discriminate.
    intros [= <-]. f_equal.
    destruct (String.eqb v1 "ACE"), (String.eqb v2 "ACE"); reflexivity.
Qed.

(** X16: the total of a hand does not depend on the order of its cards. *)
Theorem hand_total_order_independent (cards cards' : list CardGame.card)
    (t : Z) :
  Permutation cards cards' ->
  CardGame.hand_total py_int cards = CardGame.Return t ->
  CardGame.hand_total py_int cards' = CardGame.Return t.
Proof.
  intros Hperm Ht.
  apply hand_total_inv in Ht as (points & aces & Hp & Ha & ->).
  destruct (points_of_Permutation _ _ _ Hperm Hp) as (points' & Hp' & Hpp).
  rewrite (hand_total_run _ _ _ Hp' (count_aces_Permutation _ _ _ Hperm Ha)).
  now rewrite (sum_Permutation _ _ Hpp).
Qed.

Lemma points_of_defined (cards : list CardGame.card) :
  (exists points, CardGame.points_of py_int cards = CardGame.Return points)
  <-> Forall (CardGame.valued py_int) cards.
Proof.
  induction cards as [|c cards IH]; simpl.
  - split; [constructor | eauto].
  - unfold CardGame.getitem at 1.
    destruct (dict_get "value" c) as [v|] eqn:Hv; simpl.
    + destruct (CardGame.card_point_value py_int v) as [p|e] eqn:Hpv; simpl.
      * split.
        -- intros [points Hp]. constructor; [exists v, p; auto|].
           apply IH.
           destruct (CardGame.points_of py_int cards); [eauto|discriminate].
        -- intros Hall. inversion Hall as [|? ? _ Hrest]; subst.
           apply IH in Hrest as [ps ->]. simpl. eauto.
      * split; [intros [? ?]; discriminate|].
        intros Hall. inversion Hall as [|? ? (v' & p' & Hv' & Hp') _]; subst.
        congruence.
    + split; [intros [? ?]; discriminate|].
      intros Hall. inversion Hall as [|? ? (v' & p' & Hv' & _) _]; subst.
      congruence.
Qed.

Lemma count_aces_defined (cards : list CardGame.card) :
  Forall (CardGame.valued py_int) cards ->
  exists aces, CardGame.count_aces cards = CardGame.Return aces.
Proof.
  induction 1 as [|c cards (v & p & Hv & _) _ [n IH]]; simpl; [eauto|].
  unfold CardGame.getitem. rewrite Hv. simpl. rewrite IH. simpl. eauto.
Qed.

(** X17: [hand_total] returns a total exactly when every card of the hand
    carries a value that has a point value; and when the first card that
    does not is one without a value, what it raises is the [KeyError] of
    that lookup. *)
Theorem hand_total_defined (good rest : list CardGame.card)
    (c : CardGame.card) :
  ((exists t, CardGame.hand_total py_int good = CardGame.Return t)
   <-> Forall (CardGame.valued py_int) good)
  /\ (Forall (CardGame.valued py_int) good -> dict_get "value" c = None ->
      CardGame.hand_total py_int (good ++ c :: rest)%list
      = CardGame.Raised (CardGame.KeyError "value")).
Proof.
  split; [split|].
  - intros [t Ht]. apply hand_total_inv in Ht as (points & _ & Hp & _).
    apply points_of_defined. eauto.
  - intros Hall. pose proof Hall as Hp. apply points_of_defined in Hp as [ps Hp].
    destruct (count_aces_defined _ Hall) as [n Hn].
    rewrite (hand_total_run _ _ _ Hp Hn). eauto.
  - intros Hall Hnone. unfold CardGame.hand_total.
    assert (Hp : CardGame.points_of py_int (good ++ c :: rest)%list
                 = CardGame.Raised (CardGame.KeyError "value")).
    { induction Hall as [|c0 good (v & p & Hv & Hpv) _ IH]; simpl.
      - unfold CardGame.getitem. now rewrite Hnone.
      - unfold CardGame.getitem at 1. rewrite Hv. simpl. rewrite Hpv. simpl.
        now rewrite IH. }
    now rewrite Hp.
Qed.

End HandProperties.

Lemma hand_total_best_witness :
  exists points aces,
    CardGame.points_of CardGame.numeral_int hand_ace_king_nine
    = CardGame.Return points
    /\ CardGame.count_aces hand_ace_king_nine = CardGame.Return aces
    /\ (exists j : nat, (j <= aces)%nat
                        /\ 20 = CardGame.sum points - 10 * Z.of_nat j)
    /\ (forall j : nat, (j <= aces)%nat ->
          CardGame.sum points - 10 * Z.of_nat j <= 21 ->
          CardGame.sum points - 10 * Z.of_nat j <= 20 /\ 20 <= 21)
    /\ (21 < 20 -> 20 = CardGame.sum points - 10 * Z.of_nat aces).
Proof.
  apply (hand_total_best CardGame.numeral_int hand_ace_king_nine 20).
  vm_compute. reflexivity.
Defined.

Lemma hand_total_order_independent_witness :
  CardGame.hand_total CardGame.numeral_int (rev hand_ace_king_nine)
  = CardGame.Return 20.
Proof.
  apply (hand_total_order_independent CardGame.numeral_int
           hand_ace_king_nine (rev hand_ace_king_nine) 20).
  - apply Permutation_rev.
  - vm_compute. reflexivity.
Defined.

Lemma hand_total_defined_witness :
  CardGame.hand_total CardGame.numeral_int
    (hand_ace_queen ++ [("code", "0S")] :: hand_ace_king_nine)%list
  = CardGame.Raised (CardGame.KeyError "value").
Proof.
  destruct (hand_total_defined CardGame.numeral_int hand_ace_queen
              hand_ace_king_nine [("code", "0S")]) as [_ Hraise].
  apply Hraise; [|reflexivity].
  repeat constructor.
  - exists "ACE", 11. split; reflexivity.
  - exists "QUEEN", 10. split; reflexivity.
Defined.

Lemma from_images_keys_witness :
  In "space22" (keys (pieces (from_images page_scenario_A))).
Proof.
  destruct (from_images_keys page_scenario_A "space22") as [[_ Hkey] _].
  apply Hkey. split; [discriminate|].
  exists (mkImg (Some "space22") (Some "you1.gif")).
  split; [now left | reflexivity].
Defined.

Lemma has_blackjack_iff_witness :
  CardGame.has_blackjack CardGame.numeral_int hand_ace_queen
  = CardGame.Return true.
Proof.
  apply (has_blackjack_iff CardGame.numeral_int hand_ace_queen).
  exists [11; 10], 1%nat, O. repeat split; try reflexivity. lia.
Defined.
